(** * Mailpile [mailutils.py]: a shallow embedding and its properties

    The development follows [src/mailpile/mailutils.py]:

    - Python 2 text ([str] and [unicode]) and the string methods the
      module calls ([splitlines], [rstrip], [strip], [startswith], [in]);
    - [Email.parse_line_type] and [Email.parse_text_part];
    - the process-wide parse cache of [ParseMessage];
    - the attachment counters of [Email.get_message_tree] and
      [Email._find_attachments];
    - [Email.evaluate_pgp];
    - [AddressHeaderParser]. *)

From Stdlib Require Import NArith ZArith Lia Ascii String.
From Stdlib Require Import HexadecimalString HexadecimalN HexadecimalFacts.
From stdpp Require Import base option strings numbers pretty sets list.

Local Open Scope string_scope.
Local Open Scope list_scope.

(** ** Python 2 text *)

(** A character is its code point; a text is the sequence of its
    characters.  Python 2 has two text types, the 8-bit [str] and
    [unicode]; the string methods differ between them in what counts as
    a line boundary and as white space. *)
Definition text := list N.

Inductive strtype := Str | Unicode.

(** A Python string literal (ASCII) as a text. *)
Fixpoint u (s : string) : text :=
  match s with
  | EmptyString => []
  | String a s' => N_of_ascii a :: u s'
  end.

Definition LF : N := 10.
Definition CR : N := 13.

Module Py.

(** Line boundaries of [splitlines]: [\n] and [\r] for [str]; for
    [unicode] also VT, FF, FS, GS, RS, NEL, LS and PS. *)
Definition is_linebreak (k : strtype) (c : N) : bool :=
  match k with
  | Str => bool_decide (c ∈ [10; 13])
  | Unicode =>
      bool_decide (c ∈ [10; 11; 12; 13; 28; 29; 30; 133; 8232; 8233])
  end%N.

(** White space of [strip] and [rstrip] without argument. *)
Definition is_space (k : strtype) (c : N) : bool :=
  match k with
  | Str => bool_decide (c ∈ [9; 10; 11; 12; 13; 32])
  | Unicode =>
      bool_decide (c ∈ [9; 10; 11; 12; 13; 28; 29; 30; 31; 32; 133; 160;
                        5760; 6158; 8232; 8233; 8239; 8287; 12288])
      || ((8192 <=? c) && (c <=? 8202))
  end%N.

(** [s.splitlines(True)]: the lines of [s], each with its line ending.
    [cur] holds the characters of the line being read, last one first.
    A [\r] immediately followed by [\n] is one line ending. *)
Fixpoint splitlines_aux (k : strtype) (cur : text) (s : text) : list text :=
  match s with
  | [] => match cur with [] => [] | _ => [rev cur] end
  | c :: s' =>
      if is_linebreak k c then
        match s' with
        | c' :: s'' =>
            if bool_decide (c = CR) && bool_decide (c' = LF)
            then rev (c' :: c :: cur) :: splitlines_aux k [] s''
            else rev (c :: cur) :: splitlines_aux k [] s'
        | [] => [rev (c :: cur)]
        end
      else splitlines_aux k (c :: cur) s'
  end.

Definition splitlines (k : strtype) (s : text) : list text :=
  splitlines_aux k [] s.

(** [s.lstrip()], [s.rstrip()] and [s.strip()]. *)
Fixpoint lstrip (k : strtype) (s : text) : text :=
  match s with
  | c :: s' => if is_space k c then lstrip k s' else s
  | [] => []
  end.

Definition rstrip (k : strtype) (s : text) : text :=
  rev (lstrip k (rev s)).

Definition strip (k : strtype) (s : text) : text :=
  rstrip k (lstrip k s).

(** [s.startswith(p)]. *)
Fixpoint startswith (s p : text) : bool :=
  match p, s with
  | [], _ => true
  | _ :: _, [] => false
  | a :: p', b :: s' => bool_decide (a = b) && startswith s' p'
  end.

(** [c in s] for a one-character [c]. *)
Definition contains (c : N) (s : text) : bool := bool_decide (c ∈ s).

(** [''.join(l)]. *)
Definition join (l : list text) : text := concat l.

(** The slices [l[:-n]] and [l[-n:]] for [n > 0]. *)
Definition upto_last (n : nat) {A} (l : list A) : list A :=
  take (length l - n) l.
Definition last_n (n : nat) {A} (l : list A) : list A :=
  drop (length l - n) l.

(** [l[-n]] for [0 < n <= len(l)]; [None] stands for [IndexError]. *)
Definition from_end (n : nat) {A} (l : list A) : option A :=
  if bool_decide (0 < n <= length l)%nat then l !! (length l - n)%nat
  else None.

End Py.

(** ** The OpenPGP armor delimiters *)

(** Modelled from the spec: the constants [GnuPG.ARMOR_BEGIN_SIGNED],
    [GnuPG.ARMOR_BEGIN_SIGNATURE], [GnuPG.ARMOR_END_SIGNATURE],
    [GnuPG.ARMOR_BEGIN_ENCRYPTED] and [GnuPG.ARMOR_END_ENCRYPTED] live in
    [mailpile.crypto.gpgi]; the specification gives the delimiter
    strings of its section 6. *)
Module GnuPG.
Definition ARMOR_BEGIN_SIGNED : text := u "-----BEGIN PGP SIGNED MESSAGE-----".
Definition ARMOR_BEGIN_SIGNATURE : text := u "-----BEGIN PGP SIGNATURE-----".
Definition ARMOR_END_SIGNATURE : text := u "-----END PGP SIGNATURE-----".
Definition ARMOR_BEGIN_ENCRYPTED : text := u "-----BEGIN PGP MESSAGE-----".
Definition ARMOR_END_ENCRYPTED : text := u "-----END PGP MESSAGE-----".
End GnuPG.

(** ** The line classifier *)

Definition text_eqb (a b : text) : bool := bool_decide (a = b).

(** The tuple of lines that open a signature block. *)
Definition signature_markers : list text :=
  [u "-- " ++ [LF]; u "-- " ++ [CR; LF]; u "- --" ++ [LF]; u "- --" ++ [CR; LF]].

(** [Email.parse_line_type(line, block)]: the next block state and the
    type of the line. *)
Definition parse_line_type (k : strtype) (line : text) (block : string)
  : string * string :=
  if bool_decide (block ∈ ["body"; "quote"])
     && bool_decide (line ∈ signature_markers)
  then ("signature", "signature")
  else if bool_decide (block = "signature")
  then ("signature", "signature")
  else
    let stripped := Py.rstrip k line in
    if text_eqb stripped GnuPG.ARMOR_BEGIN_SIGNED
    then ("pgpbeginsigned", "pgpbeginsigned")
    else if bool_decide (block = "pgpbeginsigned") then
      if Py.startswith line (u "Hash: ") || text_eqb stripped []
      then ("pgpbeginsigned", "pgpbeginsigned")
      else ("pgpsignedtext", "pgpsignedtext")
    else if bool_decide (block = "pgpsignedtext") then
      if text_eqb stripped GnuPG.ARMOR_BEGIN_SIGNATURE
      then ("pgpsignature", "pgpsignature")
      else ("pgpsignedtext", "pgpsignedtext")
    else if bool_decide (block = "pgpsignature") then
      if text_eqb stripped GnuPG.ARMOR_END_SIGNATURE
      then ("pgpend", "pgpsignature")
      else ("pgpsignature", "pgpsignature")
    else if text_eqb stripped GnuPG.ARMOR_BEGIN_ENCRYPTED
    then ("pgpbegin", "pgpbegin")
    else if bool_decide (block = "pgpbegin") then
      if Py.contains 58 line || text_eqb stripped []
      then ("pgpbegin", "pgpbegin")
      else ("pgptext", "pgptext")
    else if bool_decide (block = "pgptext") then
      if text_eqb stripped GnuPG.ARMOR_END_ENCRYPTED
      then ("pgpend", "pgpend")
      else ("pgptext", "pgptext")
    else if bool_decide (block = "quote") && text_eqb stripped []
    then ("quote", "quote")
    else if Py.startswith line (u ">")
    then ("quote", "quote")
    else ("body", "text").

(** ** Exceptions *)

(** The exceptions the modelled code raises or lets through.
    [UnicodeDecodeError] and [UnicodeEncodeError] are subclasses of
    [ValueError]; [GnuPGError] stands for whatever the external crypto
    engine raises. *)
Inductive exn :=
| KeyError
| IndexError
| TypeError
| LookupError
| ValueError (msg : string)
| UnicodeDecodeError
| UnicodeEncodeError
| GnuPGError (msg : string).

(** [isinstance(e, ValueError)], the test of [except ValueError]. *)
Definition is_ValueError (e : exn) : bool :=
  match e with
  | ValueError _ | UnicodeDecodeError | UnicodeEncodeError => true
  | _ => false
  end.

Inductive result (A : Type) :=
| Ok (a : A)
| Raise (e : exn).
Arguments Ok {A} a.
Arguments Raise {A} e.

Definition bind {A B} (m : result A) (f : A -> result B) : result B :=
  match m with
  | Ok a => f a
  | Raise e => Raise e
  end.

Notation "x <- m ;; f" := (bind m (fun x => f))
  (at level 100, m at next level, right associativity).

(** A [for] loop whose body may raise. *)
Fixpoint foldM {A S} (body : S -> A -> result S) (s : S) (l : list A)
  : result S :=
  match l with
  | [] => Ok s
  | a :: l' => s' <- body s a ;; foldM body s' l'
  end.

(** ** Crypto status objects *)

(** Modelled from the spec: [SignatureInfo] and [EncryptionInfo] are
    classes of [mailpile.crypto.state]; the specification describes them
    as a status, "none" by default, with an optional non-owning link to
    the enclosing status object, here the address of that object. *)
Record Info := MkInfo {
  status : string;
  parent : option nat
}.

Definition SignatureInfo (parent : option nat) : Info := MkInfo "none" parent.
Definition EncryptionInfo (parent : option nat) : Info := MkInfo "none" parent.

(** The [crypto] dict of a part: the keys ['signature'] and
    ['encryption'], each present or not. *)
Record crypto_dict := Crypto {
  signature : option Info;
  encryption : option Info
}.

(** ** Text blocks *)

(** The dict of a text block.  A key that a dict may lack is an
    [option]: the first [current] of [parse_text_part] has no ['data'],
    and [evaluate_pgp] adds and deletes ['crypto']. *)
Record part := Part {
  type : string;
  data : option text;
  charset : string;
  crypto : option crypto_dict
}.

#[global] Instance part_inhabited : Inhabited part :=
  populate (Part "" None "" None).

Definition set_data (d : text) (p : part) : part :=
  Part (type p) (Some d) (charset p) (crypto p).

(** [p['data']]. *)
Definition get_data (p : part) : result text :=
  match data p with
  | Some d => Ok d
  | None => Raise KeyError
  end.

(** ** Block assembly *)

(** The dicts [parse_text_part] creates live in a store, addressed by
    their position; [current] and the entries of [parse] are addresses,
    so that a write through [current] is seen through [parse]. *)
Record pt_state := PtState {
  store : list part;
  current : nat;
  parse : list nat;
  block : string;
  clines : list text
}.

Section ParseTextPart.
Variable k : strtype.
Variable charset0 : string.
Variables psi pei : nat.

Definition new_block (ltype : string) (cl : list text) : part :=
  Part ltype (Some (Py.join cl)) charset0
       (Some (Crypto (Some (SignatureInfo (Some psi)))
                     (Some (EncryptionInfo (Some pei))))).

(** The three-way branch on a change of type: the store after the write
    to the previous block, and the lines that start the new one. *)
Definition lookback (ltype : string) (st : pt_state)
  : list part * list text :=
  let cl := clines st in
  if bool_decide (ltype = "quote")
     && bool_decide (cl <> [])
     && Py.contains 64 (default [] (Py.from_end 1 cl))
  then (alter (set_data (Py.join (Py.upto_last 1 cl))) (current st) (store st),
        Py.last_n 1 cl)
  else if bool_decide (ltype = "quote")
     && bool_decide (2 < length cl)%nat
     && Py.contains 64 (default [] (Py.from_end 2 cl))
     && text_eqb [] (Py.strip k (default [] (Py.from_end 1 cl)))
  then (alter (set_data (Py.join (Py.upto_last 2 cl))) (current st) (store st),
        Py.last_n 2 cl)
  else (store st, []).

(** The body of the loop over the lines. *)
Definition pt_line (st : pt_state) (line : text) : result pt_state :=
  let '(block1, ltype) := parse_line_type k line (block st) in
  let st1 :=
    if bool_decide (ltype <> type (store st !!! current st)) then
      let '(store1, cl1) := lookback ltype st in
      PtState (store1 ++ [new_block ltype cl1]) (length store1)
              (parse st ++ [length store1]) block1 cl1
    else PtState (store st) (current st) (parse st) block1 (clines st) in
  d <- get_data (store st1 !!! current st1) ;;
  Ok (PtState (alter (set_data (d ++ line)) (current st1) (store st1))
              (current st1) (parse st1) (block st1) (clines st1 ++ [line])).

(** The first [current]: a dict of type ['bogus'] without ['data']. *)
Definition bogus : part :=
  Part "bogus" None charset0
       (Some (Crypto (Some (SignatureInfo (Some psi)))
                     (Some (EncryptionInfo (Some pei))))).

Definition pt_init : pt_state := PtState [bogus] 0 [] "body" [].

(** The blocks a state's [parse] list denotes. *)
Definition pt_blocks (st : pt_state) : list part :=
  (fun a => store st !!! a) <$> parse st.

(** [Email.parse_text_part(data, charset, crypto)]. *)
Definition parse_text_part (data0 : text) : result (list part) :=
  st <- foldM pt_line pt_init (Py.splitlines k data0) ;;
  Ok (pt_blocks st).

End ParseTextPart.

(** ** Blocks as groups of lines *)

(** What block assembly computes, without the store: each block is a
    type and the lines it holds.  [moved] is the number of trailing lines
    of the previous block that start a new block of type [ltype]. *)
Definition group : Type := string * list text.

Section Groups.
Variable k : strtype.

Definition moved (ltype : string) (cl : list text) : nat :=
  if bool_decide (ltype = "quote")
     && bool_decide (cl <> [])
     && Py.contains 64 (default [] (Py.from_end 1 cl))
  then 1
  else if bool_decide (ltype = "quote")
     && bool_decide (2 < length cl)%nat
     && Py.contains 64 (default [] (Py.from_end 2 cl))
     && text_eqb [] (Py.strip k (default [] (Py.from_end 1 cl)))
  then 2
  else 0.

Definition add_line (ltype : string) (line : text) (gs : list group)
  : list group :=
  match last gs with
  | Some (t, cl) =>
      if bool_decide (ltype = t)
      then removelast gs ++ [(t, cl ++ [line])]
      else removelast gs ++
           [(t, Py.upto_last (moved ltype cl) cl);
            (ltype, Py.last_n (moved ltype cl) cl ++ [line])]
  | None => [(ltype, [line])]
  end.

Fixpoint assemble (block : string) (gs : list group) (lines : list text)
  : list group :=
  match lines with
  | [] => gs
  | line :: rest =>
      let '(block1, ltype) := parse_line_type k line block in
      assemble block1 (add_line ltype line gs) rest
  end.

(** The block state after a list of lines. *)
Fixpoint block_after (block : string) (lines : list text) : string :=
  match lines with
  | [] => block
  | line :: rest => block_after (parse_line_type k line block).1 rest
  end.

End Groups.

(** ** The rules of the classifier, as conditions *)

(** Some rule of [parse_line_type] other than the final default claims
    the pair of a block state and a line. *)
Definition claimed (k : strtype) (line : text) (block : string) : bool :=
  (bool_decide (block ∈ ["body"; "quote"])
   && bool_decide (line ∈ signature_markers))
  || bool_decide (block = "signature")
  || text_eqb (Py.rstrip k line) GnuPG.ARMOR_BEGIN_SIGNED
  || bool_decide (block = "pgpbeginsigned")
  || bool_decide (block = "pgpsignedtext")
  || bool_decide (block = "pgpsignature")
  || text_eqb (Py.rstrip k line) GnuPG.ARMOR_BEGIN_ENCRYPTED
  || bool_decide (block = "pgpbegin")
  || bool_decide (block = "pgptext")
  || (bool_decide (block = "quote") && text_eqb (Py.rstrip k line) [])
  || Py.startswith line (u ">").

(** The pairs [parse_line_type] returns. *)
Definition transitions : list (string * string) :=
  [("signature", "signature"); ("pgpbeginsigned", "pgpbeginsigned");
   ("pgpsignedtext", "pgpsignedtext"); ("pgpsignature", "pgpsignature");
   ("pgpend", "pgpsignature"); ("pgpbegin", "pgpbegin");
   ("pgptext", "pgptext"); ("pgpend", "pgpend"); ("quote", "quote");
   ("body", "text")].

Definition line_types : list string :=
  ["signature"; "pgpbeginsigned"; "pgpsignedtext"; "pgpsignature";
   "pgpbegin"; "pgptext"; "pgpend"; "quote"; "text"].

(** ** The quote lookback, in words *)

(** The lines that leave the previous block, whose lines are [cl], when
    a block of type [ltype] starts: for a quote block, the last line if
    it contains [@]; otherwise the last two lines if the block has at
    least three, the last but one contains [@] and the last is blank;
    no line otherwise. *)
Definition attribution (k : strtype) (ltype : string) (cl : list text)
  : list text :=
  if bool_decide (ltype = "quote") then
    match reverse cl with
    | l1 :: before =>
        if Py.contains 64 l1 then [l1]
        else
          match before with
          | l2 :: _ :: _ =>
              if Py.contains 64 l2 && text_eqb [] (Py.strip k l1)
              then [l2; l1]
              else []
          | _ => []
          end
    | [] => []
    end
  else [].

(** The number of blocks of type ['signature']. *)
Definition signature_blocks (l : list part) : nat :=
  length (filter (fun t : string => t = "signature") (type <$> l)).

(** ** The parse cache *)

(** [GLOBAL_PARSE_CACHE] is a list of tuples [(cache_id, pgpmime,
    message)], most recent first; [ClearParseCache] overwrites a tuple
    with [(None, None, None)], so each component is an [option].  The
    lock only serialises the accesses; the functions below are what one
    holder of the lock does. *)
Section ParseCache.
Context {Id Message Fd : Type} `{EqDecision Id}.

Definition entry : Type := option Id * option bool * option Message.
Definition cache : Type := list entry.

(** The loop [for cid, pm, message in GLOBAL_PARSE_CACHE] with its
    test [cid == cache_id and pm == pgpmime]; [None] when it falls
    through. *)
Fixpoint cache_lookup (c : cache) (cache_id : Id) (pgpmime : bool)
  : option (option Message) :=
  match c with
  | [] => None
  | (cid, pm, message) :: c' =>
      if bool_decide (cid = Some cache_id) && bool_decide (pm = Some pgpmime)
      then Some message
      else cache_lookup c' cache_id pgpmime
  end.

(** [GLOBAL_PARSE_CACHE[24:] = []] followed by
    [GLOBAL_PARSE_CACHE[:0] = [(cache_id, pgpmime, message)]]. *)
Definition cache_insert (c : cache) (cache_id : Id) (pgpmime : bool)
    (message : Message) : cache :=
  (Some cache_id, Some pgpmime, Some message) :: take 24 c.

(** [ClearParseCache(cache_id, pgpmime, full)]; [truth] is the truth
    value of a cache id, which the test [cache_id and ...] asks for. *)
Definition ClearParseCache (truth : Id -> bool) (c : cache)
    (cache_id : option Id) (pgpmime full : bool) : cache :=
  (fun e : entry =>
     let '(cid, pm, _) := e in
     if full
        || (pgpmime && bool_decide (pm = Some true))
        || match cache_id with
           | Some i => truth i && bool_decide (cid = Some i)
           | None => false
           end
     then (None, None, None)
     else e) <$> c.

(** The collaborators of [ParseMessage]: whether the [GnuPG] class is
    there, the e-mail parser applied to [fd] ([None] when [fd] can not
    be read), [copy.deepcopy] and [UnwrapMimeCrypto]. *)
Variable GnuPG_present : bool.
Variable parse_fd : Fd -> option Message.
Variable deepcopy : Message -> Message.
Variable UnwrapMimeCrypto : Message -> Message.

(** [ParseMessage] with [pgpmime=False]: the branch that reads [fd]. *)
Definition ParseMessage_plain (c : cache) (fd : Fd) (cache_id : option Id)
    (update_cache : bool) : option Message * cache :=
  let hit :=
    match cache_id with
    | Some i => if update_cache then None else cache_lookup c i false
    | None => None
    end in
  match hit with
  | Some message => (message, c)
  | None =>
      match parse_fd fd with
      | None => (None, c)
      | Some message =>
          match cache_id with
          | Some i => (Some message, cache_insert c i false message)
          | None => (Some message, c)
          end
      end
  end.

(** [ParseMessage(fd, cache_id, update_cache, pgpmime)]: the result and
    the cache afterwards. *)
Definition ParseMessage (c : cache) (fd : Fd) (cache_id : option Id)
    (update_cache pgpmime : bool) : option Message * cache :=
  let pgpmime := pgpmime && GnuPG_present in
  if pgpmime then
    let hit :=
      match cache_id with
      | Some i => if update_cache then None else cache_lookup c i true
      | None => None
      end in
    match hit with
    | Some message => (message, c)
    | None =>
        let '(r, c1) := ParseMessage_plain c fd cache_id false in
        match r with
        | None => (None, c1)
        | Some message =>
            match cache_id with
            | Some i =>
                let message := UnwrapMimeCrypto (deepcopy message) in
                (Some message, cache_insert c1 i true message)
            | None => (Some (UnwrapMimeCrypto message), c1)
            end
        end
    end
  else ParseMessage_plain c fd cache_id update_cache.

End ParseCache.

(** ** Attachment ordinals *)

(** What the code reads of a part that [msg.walk()] yields: its content
    type, the attribute [cryptedcontainer] ([None] when the part has no
    such attribute), the headers [Content-Disposition] and [Content-Id]
    ([None] when absent) and the decoded file name. *)
Record mime_part := MimePart {
  content_type : string;
  cryptedcontainer : option bool;
  content_disposition : option string;
  content_id : option string;
  filename : string
}.

(** The entries of [tree['attachments']] (of their keys:
    ['mimetype'], ['count'], ['part'], ['content-id'], ['filename']). *)
Record attachment := Attachment {
  att_mimetype : string;
  att_count : nat;
  att_part : mime_part;
  att_content_id : string;
  att_filename : string
}.

(** [part.cryptedcontainer is True] inside [try: ... except: pass]: a
    missing attribute raises, and the [continue] is not reached. *)
Definition is_crypted_container (p : mime_part) : bool :=
  String.eqb (content_type p) "application/octet-stream"
  && bool_decide (cryptedcontainer p = Some true).

(** The parts [get_message_tree] skips without counting. *)
Definition tree_skips (p : mime_part) : bool :=
  String.prefix "multipart/" (content_type p)
  || String.eqb (content_type p) "application/pgp-encrypted"
  || is_crypted_container p.

(** A counted part is shown inline when this holds, and is an
    attachment otherwise. *)
Definition is_inline_text (p : mime_part) : bool :=
  String.eqb (default "inline" (content_disposition p)) "inline"
  && bool_decide (content_type p ∈ ["text/plain"; "text/html"]).

(** The loop of [get_message_tree] over [msg.walk()], from [count = 0]
    on: the value of [count] at every part that is counted, and the
    attachments appended to the tree ([want] is [None] or has
    ['attachments']). *)
Fixpoint tree_walk (count : nat) (walk : list mime_part)
  : list (nat * mime_part) * list attachment :=
  match walk with
  | [] => ([], [])
  | part :: rest =>
      if tree_skips part then tree_walk count rest
      else
        let count := count + 1 in
        let '(seen, atts) := tree_walk count rest in
        ((count, part) :: seen,
         if is_inline_text part then atts
         else Attachment (content_type part) count part
                         (default "" (content_id part)) (filename part)
              :: atts)
  end.

Definition tree_counts (walk : list mime_part) : list (nat * mime_part) :=
  (tree_walk 0 walk).1.

Definition tree_attachments (walk : list mime_part) : list attachment :=
  (tree_walk 0 walk).2.

(** The fallback of [_attachment_aid]: ['part:%s' % att['count']]. *)
Definition part_aid (count : nat) : string := "part:" +:+ pretty count.

Definition lower_ascii (a : ascii) : ascii :=
  let n := nat_of_ascii a in
  if Nat.leb 65 n && Nat.leb n 90 then ascii_of_nat (n + 32) else a.

Fixpoint lower (s : string) : string :=
  match s with
  | EmptyString => EmptyString
  | String a s' => String (lower_ascii a) (lower s')
  end.

Definition endswith (s suffix : string) : bool :=
  String.eqb
    (String.substring (String.length s - String.length suffix)
                      (String.length suffix) s) suffix
  && Nat.leb (String.length suffix) (String.length s).

(** The test of [_find_attachments] on a counted part. *)
Definition att_matches (att_id : string) (count : nat) (p : mime_part)
  : bool :=
  String.eqb "*" att_id
  || String.eqb ("#" +:+ pretty count) att_id
  || String.eqb ("part:" +:+ pretty count) att_id
  || String.eqb (default "" (content_id p)) att_id
  || String.eqb (content_type p) att_id
  || endswith (lower (filename p)) ("." +:+ att_id)
  || String.eqb (filename p) att_id.

(** The generator [_find_attachments(att_id, negative)] over
    [msg.walk()], from [count = 0] on: the [(count, part)] of every
    tuple it yields. *)
Fixpoint find_walk (att_id : string) (negative : bool) (count : nat)
    (walk : list mime_part) : list (nat * mime_part) :=
  match walk with
  | [] => []
  | part :: rest =>
      if String.prefix "multipart/" (content_type part)
      then find_walk att_id negative count rest
      else
        let count := count + 1 in
        if att_matches att_id count part then
          if negative then find_walk att_id negative count rest
          else (count, part) :: find_walk att_id negative count rest
        else if negative
        then (count, part) :: find_walk att_id negative count rest
        else find_walk att_id negative count rest
  end.

Definition _find_attachments (walk : list mime_part) (att_id : string)
    (negative : bool) : list (nat * mime_part) :=
  find_walk att_id negative 0 walk.

(** The count [_find_attachments] gives each part it counts: what
    [att_id = '*'] yields. *)
Definition find_counts (walk : list mime_part) : list (nat * mime_part) :=
  _find_attachments walk "*" false.

(** ** The crypto overlay *)

(** The tree [evaluate_pgp] works on: the keys ['text_parts'] and
    ['crypto'], each present or not; the crypto entry holds the status
    objects under ['signature'] and ['encryption']. *)
Record tree := Tree {
  text_parts : option (list part);
  tree_crypto : option (Info * Info)
}.

Definition set_crypto (c : option crypto_dict) (p : part) : part :=
  Part (type p) (data p) (charset p) c.

(** [l[n]] for [n >= 0]. *)
Definition index {A} (l : list A) (n : nat) : result A :=
  match l !! n with
  | Some a => Ok a
  | None => Raise IndexError
  end.

(** A list comprehension whose element expression may raise. *)
Fixpoint comprehension {A B} (f : A -> result B) (l : list A)
  : result (list B) :=
  match l with
  | [] => Ok []
  | a :: l' => b <- f a ;; bs <- comprehension f l' ;; Ok (b :: bs)
  end.

Section EvaluatePgp.

(** The collaborators: the codecs behind [unicode.encode] and
    [str.decode], the two operations of [GnuPG(self.config)], and the
    methods [bubble_up] and [mix_bubbles] of the status objects, which
    update the object they are given. *)
Variable encode : string -> text -> result text.
Variable decode : string -> text -> result text.
Variable gpg_verify : text -> result Info.
Variable gpg_decrypt : text -> result (Info * Info * text).
Variable bubble_up : Info -> Info -> Info.
Variable mix_bubbles : Info -> Info.

Definition CHARSET_PRIORITY_LIST : list string := ["utf-8"; "iso-8859-1"].

(** The loop of [decode_text] over the charsets: the first that decodes
    wins; [UnicodeDecodeError], [TypeError] and [LookupError] move on to
    the next, any other exception leaves the function. *)
Fixpoint decode_first (payload : text) (charsets : list string)
  : result (option (text * string)) :=
  match charsets with
  | [] => Ok None
  | cs :: rest =>
      match decode cs payload with
      | Ok p => Ok (Some (p, cs))
      | Raise (UnicodeDecodeError | TypeError | LookupError) =>
          decode_first payload rest
      | Raise e => Raise e
      end
  end.

(** [Email.decode_text(payload, charset, binary)]; an empty or missing
    [charset] is [None]. *)
Definition decode_text (payload : text) (charset1 : option string)
    (binary : bool) : result (text * string) :=
  let charsets :=
    match charset1 with
    | Some cs =>
        cs :: filter (fun c => lower cs <> c) CHARSET_PRIORITY_LIST
    | None => CHARSET_PRIORITY_LIST
    end in
  r <- decode_first payload charsets ;;
  match r with
  | Some pc => Ok pc
  | None =>
      if binary then Ok (payload, "8bit")
      else Ok (u "[Binary data suppressed]" ++ [LF], "utf-8")
  end.

(** The state of the loop over [tree['text_parts']]: the part dicts,
    which [pgpdata] refers to by position, and the crypto entry of the
    tree. *)
Record ev_state := EvState {
  ev_parts : list part;
  ev_pgpdata : list nat;
  ev_crypto : option (Info * Info)
}.

(** The [try] block of the signature run, with its [except Exception]:
    the parts as the block leaves them, also when it stops half way, and
    the value of [si]. *)
Definition verify_run (parts : list part) (pgpdata : list nat)
  : list part * option Info :=
  match comprehension
          (fun j => d <- get_data (parts !!! j) ;;
                    encode (charset (parts !!! j)) d) pgpdata with
  | Raise _ => (parts, None)
  | Ok ms =>
      match gpg_verify (Py.join ms) with
      | Raise _ => (parts, None)
      | Ok si =>
          match pgpdata !! 0 with
          | None => (parts, Some si)
          | Some j0 =>
              let parts := alter (set_data []) j0 parts in
              match pgpdata !! 1 with
              | None => (parts, Some si)
              | Some j1 =>
                  match crypto (parts !!! j1) with
                  | None => (parts, Some si)
                  | Some cd =>
                      let parts :=
                        alter (set_crypto
                                 (Some (Crypto (Some si) (encryption cd))))
                              j1 parts in
                      match pgpdata !! 2 with
                      | None => (parts, Some si)
                      | Some j2 =>
                          (alter (set_data []) j2 parts, Some si)
                      end
                  end
              end
          end
      end
  end.

(** The statements of the decryption run, which no [try] encloses. *)
Definition decrypt_run (parts : list part) (pgpdata : list nat)
  : result (list part * Info * Info) :=
  ds <- comprehension (fun j => get_data (parts !!! j)) pgpdata ;;
  r <- gpg_decrypt (Py.join ds) ;;
  let '(si, ei, text0) := r in
  tc <- decode_text text0 (Some "utf-8") false ;;
  j1 <- index pgpdata 1 ;;
  cd <- match crypto (parts !!! j1) with
        | Some cd => Ok cd
        | None => Raise KeyError
        end ;;
  let parts :=
    alter (set_crypto (Some (Crypto (Some si) (Some ei)))) j1 parts in
  if String.eqb (status ei) "decrypted" then
    j0 <- index pgpdata 0 ;;
    let parts := alter (set_data []) j0 parts in
    let parts := alter (set_data tc.1) j1 parts in
    j2 <- index pgpdata 2 ;;
    Ok (alter (set_data []) j2 parts, si, ei)
  else Ok (parts, si, ei).

(** The body of the loop, for the part at position [i]. *)
Definition ev_part (check_sigs decrypt : bool) (st : ev_state) (i : nat)
  : result ev_state :=
  let parts :=
    alter (fun p => match crypto p with
                    | None => set_crypto (Some (Crypto None None)) p
                    | Some _ => p
                    end) i (ev_parts st) in
  let ty := type (parts !!! i) in
  let '(parts, pgpdata, si) :=
    if check_sigs then
      if String.eqb ty "pgpbeginsigned" then (parts, [i], None)
      else if String.eqb ty "pgpsignedtext"
      then (parts, ev_pgpdata st ++ [i], None)
      else if String.eqb ty "pgpsignature" then
        let '(parts, si) := verify_run parts (ev_pgpdata st ++ [i]) in
        (parts, ev_pgpdata st ++ [i], si)
      else (parts, ev_pgpdata st, None)
    else (parts, ev_pgpdata st, None) in
  r <- (if decrypt then
          if bool_decide (ty ∈ ["pgpbegin"; "pgptext"])
          then Ok (parts, pgpdata ++ [i], si, None)
          else if String.eqb ty "pgpend" then
            r <- decrypt_run parts (pgpdata ++ [i]) ;;
            let '(parts, si, ei) := r in
            Ok (parts, pgpdata ++ [i], Some si, Some ei)
          else Ok (parts, pgpdata, si, None)
        else Ok (parts, pgpdata, si, None)) ;;
  let '(parts, pgpdata, si, ei) := r in
  let tc :=
    match ev_crypto st with
    | None =>
        if bool_decide (is_Some si \/ is_Some ei)
        then Some (SignatureInfo None, EncryptionInfo None)
        else None
    | Some c => Some c
    end in
  tc <- match si with
        | Some s =>
            match tc with
            | Some (ts, te) => Ok (Some (bubble_up s ts, te))
            | None => Raise KeyError
            end
        | None => Ok tc
        end ;;
  tc <- match ei with
        | Some e =>
            match tc with
            | Some (ts, te) => Ok (Some (ts, bubble_up e te))
            | None => Raise KeyError
            end
        | None => Ok tc
        end ;;
  Ok (EvState parts pgpdata tc).

(** [Email.evaluate_pgp(tree, check_sigs, decrypt)], up to the final
    feedback to the index. *)
Definition evaluate_pgp (t : tree) (check_sigs decrypt : bool)
  : result tree :=
  match text_parts t with
  | None => Ok t
  | Some parts =>
      st <- foldM (ev_part check_sigs decrypt)
                  (EvState parts [] (tree_crypto t))
                  (seq 0 (length parts)) ;;
      let parts :=
        (fun p => match crypto p with
                  | Some (Crypto None None) => set_crypto None p
                  | _ => p
                  end) <$> ev_parts st in
      match ev_crypto st with
      | None => Raise KeyError
      | Some (ts, te) =>
          Ok (Tree (Some parts) (Some (mix_bubbles ts, mix_bubbles te)))
      end
  end.

End EvaluatePgp.

(** A part has the key ['data']. *)
Definition has_data (p : part) : Prop := is_Some (data p).

(** An update of a part dict that keeps its type and its ['data'] key. *)
Definition keeps (f : part -> part) : Prop :=
  forall p, type (f p) = type p /\ (has_data p -> has_data (f p)).

(** A text with an inline encrypted region, and its blocks. *)
Definition armored_text : text :=
  u "-----BEGIN PGP MESSAGE-----" ++ [LF] ++ [LF]
  ++ u "hQEMA5mrNfcwNe" ++ [LF]
  ++ u "-----END PGP MESSAGE-----" ++ [LF].

Definition armored_blocks : list part :=
  Eval vm_compute in
    match parse_text_part Unicode "utf-8" 0 1 armored_text with
    | Ok l => l
    | Raise _ => []
    end.

(** ** Regular expressions *)

(** The part of Python's [re] that the module uses: character classes,
    sequence, ordered alternation, the greedy star, and the assertions
    [^], [$] and [\b]; matching backtracks as [re] does, trying the
    alternatives from the left and the longer repetition first.  None of
    the patterns of the module matches the empty string. *)
Module Re.

Inductive re :=
| Eps
| Cls (p : N -> bool)
| Seq (r1 r2 : re)
| Alt (r1 r2 : re)
| Star (r : re)
| Bol
| Eol
| WordB.

Definition Plus (r : re) : re := Seq r (Star r).
Definition Opt (r : re) : re := Alt r Eps.

Definition chr (c : N) : re := Cls (N.eqb c).
Definition lit (a : ascii) : re := chr (N_of_ascii a).

Fixpoint str (s : string) : re :=
  match s with
  | EmptyString => Eps
  | String a s' => Seq (lit a) (str s')
  end.

Definition lower_N (c : N) : N :=
  if (65 <=? c)%N && (c <=? 90)%N then (c + 32)%N else c.

(** A literal under the flag [(?i)]. *)
Fixpoint istr (s : string) : re :=
  match s with
  | EmptyString => Eps
  | String a s' =>
      Seq (Cls (fun c => N.eqb (lower_N c) (lower_N (N_of_ascii a))))
          (istr s')
  end.

Definition oneof (l : list N) (c : N) : bool := bool_decide (c ∈ l).
Definition between (lo hi : N) (c : N) : bool := ((lo <=? c) && (c <=? hi))%N.

(** [\s] and [\w] without the flag [UNICODE]. *)
Definition space (c : N) : bool := oneof [9; 10; 11; 12; 13; 32]%N c.
Definition word (c : N) : bool :=
  between 97 122 c || between 65 90 c || between 48 57 c || N.eqb c 95.

Definition is_word (o : option N) : bool :=
  match o with Some c => word c | None => false end.

(** [rmatch r prev s k]: match [r] at the front of [s], where [prev] is
    the character before [s], and hand the rest to [k]; the first way
    to match that [k] accepts wins. *)
Fixpoint rmatch {A} (r : re) (prev : option N) (s : text)
    (k : option N -> text -> option A) : option A :=
  match r with
  | Eps => k prev s
  | Cls p =>
      match s with
      | c :: s' => if p c then k (Some c) s' else None
      | [] => None
      end
  | Seq r1 r2 => rmatch r1 prev s (fun prev' s' => rmatch r2 prev' s' k)
  | Alt r1 r2 =>
      match rmatch r1 prev s k with
      | Some x => Some x
      | None => rmatch r2 prev s k
      end
  | Star r1 =>
      (fix loop (fuel : nat) (prev : option N) (s : text) : option A :=
         match fuel with
         | 0 => k prev s
         | S fuel' =>
             match rmatch r1 prev s
                     (fun prev' s' =>
                        if Nat.ltb (length s') (length s)
                        then loop fuel' prev' s'
                        else None) with
             | Some x => Some x
             | None => k prev s
             end
         end) (length s) prev s
  | Bol => match prev with None => k prev s | Some _ => None end
  | Eol =>
      match s with
      | [] => k prev s
      | [c] => if N.eqb c 10 then k prev s else None
      | _ => None
      end
  | WordB =>
      if xorb (is_word prev) (is_word (head s)) then k prev s else None
  end.

(** The length of the match of [r] at the front of [s]. *)
Definition match_length (r : re) (prev : option N) (s : text) : option nat :=
  rmatch r prev s (fun _ rest => Some (length s - length rest)).

(** [re.match(r, s)] as a truth value. *)
Definition matches (r : re) (s : text) : bool :=
  bool_decide (is_Some (match_length r None s)).

(** [re.findall(r, s)] for a pattern with at most one group, around all
    of it.  [skip] counts the characters of the current match that are
    still to be passed. *)
Fixpoint findall_aux (r : re) (skip : nat) (prev : option N) (s : text)
  : list text :=
  match s with
  | [] => []
  | c :: s' =>
      match skip with
      | S n => findall_aux r n (Some c) s'
      | 0 =>
          match match_length r prev s with
          | Some (S n) => take (S n) s :: findall_aux r n (Some c) s'
          | _ => findall_aux r 0 (Some c) s'
          end
      end
  end.

Definition findall (r : re) (s : text) : list text := findall_aux r 0 None s.

(** [re.sub(r, repl, s)], with the replacement as a function of the
    matched text. *)
Fixpoint sub_aux (r : re) (repl : text -> text) (skip : nat)
    (prev : option N) (s : text) : text :=
  match s with
  | [] => []
  | c :: s' =>
      match skip with
      | S n => sub_aux r repl n (Some c) s'
      | 0 =>
          match match_length r prev s with
          | Some (S n) => repl (take (S n) s) ++ sub_aux r repl n (Some c) s'
          | _ => c :: sub_aux r repl 0 (Some c) s'
          end
      end
  end.

Definition sub (r : re) (repl : text -> text) (s : text) : text :=
  sub_aux r repl 0 None s.

End Re.

(** ** More string methods *)

(** [s.replace(old, new)] for a non-empty [old]. *)
Fixpoint replace_aux (old new : text) (skip : nat) (s : text) : text :=
  match s with
  | [] => []
  | c :: s' =>
      match skip with
      | S n => replace_aux old new n s'
      | 0 =>
          if Py.startswith s old
          then new ++ replace_aux old new (length old - 1) s'
          else c :: replace_aux old new 0 s'
      end
  end.

Definition replace (old new s : text) : text := replace_aux old new 0 s.

(** [s[s.index(c):]]; [index] raises [ValueError] when [c] is not in
    [s]. *)
Fixpoint from_index (c : N) (s : text) : result text :=
  match s with
  | [] => Raise (ValueError "substring not found")
  | c' :: s' => if N.eqb c c' then Ok s else from_index c s'
  end.

(** The characters of [s] before the first [c]. *)
Fixpoint before (c : N) (s : text) : text :=
  match s with
  | [] => []
  | x :: s' => if N.eqb c x then [] else x :: before c s'
  end.

(** [s.rsplit(c, 1)] for an [s] that contains [c]: the text before the
    last [c] and the text after it. *)
Definition rsplit1 (c : N) (s : text) : text * text :=
  let after := rev (before c (rev s)) in
  (take (length s - length after - 1) s, after).

(** [sep.join(l)]. *)
Fixpoint join_with (sep : text) (l : list text) : text :=
  match l with
  | [] => []
  | [x] => x
  | x :: l' => x ++ sep ++ join_with sep l'
  end.

(** [s[1:-1]] and [s[8:-1]]. *)
Definition inner (s : text) : text := drop 1 (take (length s - 1) s).
Definition inner_from (n : nat) (s : text) : text :=
  drop n (take (length s - 1) s).

(** ** Python values that the parser compares *)

(** The values of the arguments [munge] and [_pass]: [False], a string
    or an integer. *)
Inductive pyval :=
| PyFalse
| PyStr (s : string)
| PyInt (z : Z).

(** Truth of a value, as [if munge:] tests it. *)
Definition truthy (v : pyval) : bool :=
  match v with
  | PyFalse => false
  | PyStr s => negb (String.eqb s "")
  | PyInt z => negb (Z.eqb z 0)
  end.

(** [v == w]: a string never equals a number; [False] equals [0]. *)
Definition py_eq (v w : pyval) : bool :=
  match v, w with
  | PyFalse, PyFalse => true
  | PyFalse, PyInt z | PyInt z, PyFalse => Z.eqb z 0
  | PyStr s, PyStr t => String.eqb s t
  | PyInt a, PyInt b => Z.eqb a b
  | _, _ => false
  end.

(** ** The address header parser *)

(** Modelled from the spec: [AddressInfo] is a class of
    [mailpile.vcard]; the specification describes the record of an
    address, a display name and optional key descriptors, of which the
    parser sets the fingerprint. *)
Record AddressInfo := MkAddressInfo {
  address : text;
  fn : text;
  keys : option (list text)
}.

Module AddressHeaderParser.
Import Re.

Definition DQUOTE : N := 34.
Definition SQUOTE : N := 39.
Definition BACKSLASH : N := 92.

(** [TXT_RE_QUOTE_NG]: an encoded word, [=?charset?Q?data?=]. *)
Definition TXT_RE_QUOTE_NG : re :=
  Seq (str "=?")
   (Seq (Plus (Cls (fun c => negb (N.eqb c 63 || space c))))
   (Seq (lit "?")
   (Seq (Cls (oneof (u "QqBb")))
   (Seq (lit "?")
   (Seq (Plus (Cls (fun c => negb (N.eqb c 63 || space c))))
        (str "?=")))))).

Definition RE_QUOTED : re := TXT_RE_QUOTE_NG.

(** [RE_ESCAPES]: a backslash before a backslash or a quote. *)
Definition RE_ESCAPES : re :=
  Seq (chr BACKSLASH) (Cls (oneof [BACKSLASH; DQUOTE; SQUOTE])).

(** A span between two [q], in which a doubled backslash and a
    backslash before [q] count as one item. *)
Definition quoted_span (q : N) : re :=
  Seq (chr q)
   (Seq (Star (Alt (Seq (chr BACKSLASH) (chr BACKSLASH))
              (Alt (Seq (chr BACKSLASH) (chr q))
                   (Cls (fun c => negb (N.eqb c q))))))
        (chr q)).

Definition RE_TOKENIZER : re :=
  Alt (Seq (lit "<") (Seq (Star (Cls (fun c => negb (oneof (u "<>") c))))
                          (lit ">")))
 (Alt (Seq (lit "(") (Seq (Star (Cls (fun c => negb (oneof (u "()") c))))
                          (lit ")")))
 (Alt (Seq (lit "[") (Seq (Star (Cls (fun c => negb (oneof (u "[]") c))))
                          (lit "]")))
 (Alt (quoted_span DQUOTE)
 (Alt (quoted_span SQUOTE)
 (Alt TXT_RE_QUOTE_NG
 (Alt (lit ",")
 (Alt (lit ";")
 (Alt (Plus (Cls space))
      (Plus (Cls (fun c => negb (space c || oneof (u ";,") c)))))))))))).

(** [RE_MUNGE_TOKENSPACERS]: a non-space before [<], and before [=?];
    the replacement ['\1 \2'] puts a space after the first character of
    the match. *)
Definition RE_MUNGE_TOKENSPACERS : list re :=
  [Seq (Cls (fun c => negb (space c))) (lit "<");
   Seq (Cls (fun c => negb (space c))) (str "=?")].

Definition space_after_first (m : text) : text :=
  take 1 m ++ u " " ++ drop 1 m.

(** [RE_MUNGE_TOKENSTRIPPERS]. *)
Definition RE_MUNGE_TOKENSTRIPPERS : list re :=
  [Cls (oneof [60%N; 62%N; DQUOTE])].

Definition RE_IGNORED_GROUP_TOKENS : re := istr "undisclosed".

Definition RE_MUNGE_STRIP : re :=
  Alt (Seq WordB (istr "mailto:"))
 (Alt (Cls (fun c => space c || oneof [DQUOTE; SQUOTE] c))
      (Seq (lit "?") Eol)).

Definition RE_MAYBE_EMAIL : re :=
  Seq Bol
   (Seq (Plus (Cls (fun c =>
                 negb (oneof (u "()<>@,;:") c
                       || oneof [BACKSLASH; DQUOTE] c
                       || oneof (u "[]") c
                       || space c
                       || between 0 25 c))))
   (Seq (lit "@")
   (Seq (Plus (Cls (fun c => between 97 122 c || between 65 90 c
                             || between 48 57 c || oneof (u "_.-") c)))
   (Seq (Opt (Seq (lit "#")
                  (Plus (Cls (fun c => between 65 90 c || between 97 122 c
                                       || between 48 57 c)))))
        Eol)))).

Definition DEFAULT_CHARSET_ORDER : list string := ["iso-8859-1"; "utf-8"].

(** [unescape(string)]: the escaped character replaces the escape. *)
Definition unescape (s : text) : text := sub RE_ESCAPES (drop 1) s.

(** [_tokenize(string, munge)]. *)
Definition _tokenize (string0 : text) (munge : pyval) : list text :=
  let string1 :=
    if truthy munge then
      let spaced :=
        foldl (fun s ts => sub ts space_after_first s)
              string0 RE_MUNGE_TOKENSPACERS in
      if py_eq munge (PyInt 3)
      then foldl (fun s ts => sub ts (fun _ => []) s)
                 spaced RE_MUNGE_TOKENSTRIPPERS
      else spaced
    else string0 in
  findall RE_TOKENIZER string1.

(** [_clean(token)]. *)
Definition _clean (token : text) : text :=
  if bool_decide (take 1 token ∈ [[DQUOTE]; [SQUOTE]]) then
    if text_eqb (take 1 token) (Py.last_n 1 token)
    then unescape (inner token)
    else token
  else if Py.startswith token (u "[mailto:")
          && text_eqb (Py.last_n 1 token) (u "]")
  then u "<" ++ inner_from 8 token ++ u ">"
  else if text_eqb (take 1 token) (u "[")
          && text_eqb (Py.last_n 1 token) (u "]")
  then inner token
  else token.

Section Parser.

(** The codecs: [str.decode(charset)], and the decoding of the data of
    an encoded word of a charset by base64 (['b'], ['B']) or
    quoted-printable, which may raise as the library does. *)
Variable decode : string -> text -> result text.
Variable decode_word : text -> text -> text -> result text.
Variable charset_order : list string.

(** The loop of [unquote] over the charsets: the first that decodes
    wins, [UnicodeDecodeError] moves on, and the string stays as it is
    when none decodes. *)
Fixpoint decode_any (s : text) (charsets : list string) : result text :=
  match charsets with
  | [] => Ok s
  | cs :: rest =>
      match decode cs s with
      | Ok s' => Ok s'
      | Raise UnicodeDecodeError => decode_any s rest
      | Raise e => Raise e
      end
  end.

(** The three groups of an encoded word [=?cs?how?data?=]. *)
Definition word_groups (m : text) : text * text * text :=
  let m1 := drop 2 m in
  let cs := before 63 m1 in
  let m2 := drop (length cs + 1) m1 in
  let how := before 63 m2 in
  let m3 := drop (length how + 1) m2 in
  (cs, how, before 63 m3).

(** [re.sub(RE_QUOTED, uq, string)]: as [Re.sub], with a replacement
    that may raise. *)
Fixpoint sub_words (skip : nat) (prev : option N) (s : text) : result text :=
  match s with
  | [] => Ok []
  | c :: s' =>
      match skip with
      | S n => sub_words n (Some c) s'
      | 0 =>
          match match_length RE_QUOTED prev s with
          | Some (S n) =>
              let '(cs, how, d) := word_groups (take (S n) s) in
              w <- decode_word cs how d ;;
              rest <- sub_words n (Some c) s' ;;
              Ok (w ++ rest)
          | _ => rest <- sub_words 0 (Some c) s' ;; Ok (c :: rest)
          end
      end
  end.

(** [unquote(string)]. *)
Definition unquote (s : text) : result text :=
  s' <- decode_any s charset_order ;;
  sub_words 0 None s'.

(** The body of the loop of [_group].  The list [groups] is never
    empty; it is held as the groups before the last and the last. *)
Definition group_token (st : list (list text) * list text) (token0 : text)
  : result (list (list text) * list text) :=
  let '(closed, cur) := st in
  let token := Py.strip Str token0 in
  let append :=
    if bool_decide (token <> [])
    then t <- unquote (_clean token) ;; Ok (closed, cur ++ [t])
    else Ok (closed, cur) in
  if bool_decide (token ∈ [u ","; u ";"]) then
    if bool_decide (cur <> []) then
      if bool_decide (Exists (fun g => Py.contains 64 g = true) cur)
      then Ok (closed ++ [cur], [])
      else if bool_decide
                (Exists (fun g => matches RE_IGNORED_GROUP_TOKENS g = true) cur)
      then Ok (closed, [])
      else append
    else append
  else append.

(** [_group(tokens, munge)]; [munge] is not used. *)
Definition _group (tokens : list text) (munge : pyval)
  : result (list (list text)) :=
  st <- foldM group_token ([], []) tokens ;;
  let '(closed, cur) := st in
  Ok (if bool_decide (cur = []) then closed else closed ++ [cur]).

(** [munger(string)] of [_find_address]. *)
Definition munger (munge : pyval) (s : text) : text :=
  if truthy munge then sub RE_MUNGE_STRIP (fun _ => []) s else s.

(** [email_at(i)] of [_find_address], on the list [g]. *)
Definition email_at (g : list text) (i : nat) : result AddressInfo :=
  let g :=
    (fun t => if text_eqb (take 1 t) (u "(")
                 && text_eqb (Py.last_n 1 t) (u ")")
              then inner t else t) <$> g in
  let others := (imap (fun j t => (j, t)) g) in
  let rest :=
    replace (u " ;") (u ";")
      (replace (u " ,") (u ",")
         (join_with (u " ")
            (snd <$> filter (fun jt => jt.1 <> i) others))) in
  email <- index g i ;;
  tail <- from_index 64 email ;;
  let '(email, keys) :=
    if Py.contains 35 tail
    then ((rsplit1 35 email).1, Some [(rsplit1 35 email).2])
    else (email, None) in
  Ok (MkAddressInfo email (Py.strip Unicode rest) keys).

(** The body of the loop that rejoins [email @domain.com]: the index
    runs over the length [g] had at first. *)
Definition rejoin (g : list text) (i : nat) : list text :=
  if Nat.ltb 0 i && Nat.ltb i (length g)
     && text_eqb (take 1 (g !!! i)) (u "@")
  then take (i - 1) g ++ [g !!! (i - 1) ++ g !!! i] ++ drop (i + 1) g
  else if Nat.ltb i (length g - 1)
          && text_eqb (Py.last_n 1 (g !!! i)) (u "@")
  then take i g ++ [g !!! i ++ g !!! (i + 1)] ++ drop (i + 2) g
  else g.

(** The first index from [i] on, of [n] more, at which [test] of the
    element, munged, looks like an e-mail address; [test] returns the
    candidate. *)
Fixpoint first_email (munge : pyval) (test : text -> option text)
    (g : list text) (i n : nat) : option (nat * text) :=
  match n with
  | 0 => None
  | S n' =>
      match test (g !!! i) with
      | Some cand =>
          let maybemail := munger munge cand in
          if matches RE_MAYBE_EMAIL maybemail then Some (i, maybemail)
          else first_email munge test g (S i) n'
      | None => first_email munge test g (S i) n'
      end
  end.

(** [_find_address(g, _raise, munge)]; the result [None] is the source's
    [[]] or [None], both false in [_find_addresses]. *)
Definition _find_address (g : list text) (_raise : bool) (munge : pyval)
  : result (option AddressInfo) :=
  if bool_decide (g = []) then Ok None
  else
    let g :=
      if truthy munge then foldl rejoin g (seq 0 (length g)) else g in
    let bracketed t :=
      if text_eqb (take 1 t) (u "<") && text_eqb (Py.last_n 1 t) (u ">")
      then Some (inner t) else None in
    match first_email munge bracketed g 0 (length g) with
    | Some (i, maybemail) =>
        a <- email_at (<[i := maybemail]> g) i ;; Ok (Some a)
    | None =>
        match first_email munge Some g 0 (length g) with
        | Some (i, maybemail) =>
            a <- email_at (<[i := maybemail]> g) i ;; Ok (Some a)
        | None =>
            if _raise then Raise (ValueError "No email found")
            else Ok None
        end
    end.

(** [_find_addresses(groups, _raise, munge)]. *)
Definition _find_addresses (groups : list (list text)) (_raise : bool)
    (munge : pyval) : result (list AddressInfo) :=
  alist <- comprehension (fun g => _find_address g _raise munge) groups ;;
  Ok (omap id alist).

(** One pass of [_parse]: tokenize, group, find the addresses. *)
Definition parse_pass (data0 : text) (_raise : bool) (munge : pyval)
  : result (list AddressInfo) :=
  groups <- _group (_tokenize data0 munge) munge ;;
  _find_addresses groups _raise munge.

(** The loop [for _pass in ('2', '3')] of [_parse]; falling out of it
    returns [self], which [_reset] emptied. *)
Fixpoint sloppy_passes (data0 : text) (_raise : bool) (passes : list pyval)
  : result (list AddressInfo) :=
  match passes with
  | [] => Ok []
  | _pass :: rest =>
      match parse_pass data0 _raise _pass with
      | Ok l => Ok l
      | Raise e =>
          if is_ValueError e then
            if py_eq _pass (PyInt 3) && _raise then Raise e
            else sloppy_passes data0 _raise rest
          else Raise e
      end
  end.

(** [_parse(data, strict, _raise)]: the addresses [self] holds when the
    call returns. *)
Definition _parse (data0 : text) (strict _raise : bool)
  : result (list AddressInfo) :=
  match parse_pass data0 (negb strict) PyFalse with
  | Ok l => Ok l
  | Raise e =>
      if is_ValueError e then
        if strict && _raise then Raise e
        else if strict then Ok []
        else sloppy_passes data0 _raise [PyStr "2"; PyStr "3"]
      else Raise e
  end.

End Parser.

End AddressHeaderParser.

Import AddressHeaderParser.

(** Codecs for headers of ASCII or Latin-1 characters: decoding is the
    identity on code points, and an encoded word is taken literally. *)
Definition latin1 (cs : string) (s : text) : result text := Ok s.
Definition literal_word (cs how d : text) : result text := Ok d.

(** ** The assembly state and the groups it holds *)

(** The block of a group. *)
Definition block_of (charset0 : string) (psi pei : nat) (g : group) : part :=
  new_block charset0 psi pei g.1 g.2.

(** The state [st] holds the groups [gs] and the block state [b]: the
    store is the first [current] followed by the blocks of the groups,
    [parse] lists their addresses, [current] is the last one and
    [clines] are its lines. *)
Definition represents (charset0 : string) (psi pei : nat) (b : string)
    (gs : list group) (st : pt_state) : Prop :=
  store st = bogus charset0 psi pei :: (block_of charset0 psi pei <$> gs)
  /\ parse st = seq 1 (length gs)
  /\ current st = length gs
  /\ block st = b
  /\ clines st = default [] (snd <$> last gs).

(** In the state signature the open block is a signature block. *)
Definition signature_open (b : string) (gs : list group) : Prop :=
  b = "signature" -> exists gs' cl, gs = gs' ++ [("signature", cl)].

(** A text ends with a line boundary. *)
Definition ends_with_linebreak (k : strtype) (s : text) : bool :=
  match last s with
  | Some c => Py.is_linebreak k c
  | None => false
  end.

(** The types and the data of a list of blocks. *)
Definition summary (l : list part) : list (string * option text) :=
  (fun p => (type p, data p)) <$> l.

(** ** The loop of the crypto overlay *)

(** The parts have the types [tys] and all have their data. *)
Definition good (tys : list string) (parts : list part) : Prop :=
  type <$> parts = tys /\ Forall has_data parts.

(** The invariant of the loop of [evaluate_pgp]. *)
Definition ev_inv (tys : list string) (st : ev_state) : Prop :=
  good tys (ev_parts st)
  /\ Forall (fun j => j < length tys) (ev_pgpdata st).

(** ** Inputs of the examples *)

Definition hello_text : text :=
  u "Hello" ++ [LF] ++ u "-- " ++ [LF] ++ u "Sent from my phone" ++ [LF].

Definition hello_lines : list text :=
  [u "Hello" ++ [LF]; u "-- " ++ [LF]; u "Sent from my phone" ++ [LF]].

Definition attribution_lines : list text :=
  [u "x" ++ [LF]; u "On Monday a@b wrote:" ++ [LF]; [LF]].

(** The state of block assembly after [attribution_lines]. *)
Definition attribution_state : pt_state :=
  Eval vm_compute in
    match foldM (pt_line Unicode "utf-8" 0 1) (pt_init "utf-8" 0 1)
                attribution_lines with
    | Ok st => st
    | Raise _ => pt_init "utf-8" 0 1
    end.

(** A cache at its capacity. *)
Definition full_cache : @cache nat string :=
  (fun n => (Some n, Some false, Some "old")) <$> seq 0 25.

(** A PGP/MIME encrypted message as it is when it was not decrypted: the
    container, the version part and the encrypted data. *)
Definition pgp_version_part : mime_part :=
  MimePart "application/pgp-encrypted" None None None "".

Definition pgp_data_part : mime_part :=
  MimePart "application/octet-stream" None (Some "inline") None "encrypted.asc".

Definition encrypted_message : list mime_part :=
  [MimePart "multipart/encrypted" None None None "";
   pgp_version_part; pgp_data_part].

(** A status object nothing was reported to. *)
Definition undisturbed : Info := MkInfo "none" None.

(** ** Shapes of a list of blocks *)


(** The type ['signature'] occurs in the last place only. *)
Definition signature_last (l : list string) : Prop :=
  forall i, l !! i = Some "signature" -> S i = length l.

(** ** The lines of an inline encrypted message *)

(** A line of the armor headers: it holds a colon or is blank, and is
    not the delimiter of a signed message. *)
Definition armor_header_line (k : strtype) (line : text) : bool :=
  negb (text_eqb (Py.rstrip k line) GnuPG.ARMOR_BEGIN_SIGNED)
  && (Py.contains 58 line || text_eqb (Py.rstrip k line) []).

(** A line of the armored data: it is none of the delimiters that the
    state [pgptext] reacts to. *)
Definition armor_data_line (k : strtype) (line : text) : bool :=
  negb (text_eqb (Py.rstrip k line) GnuPG.ARMOR_BEGIN_SIGNED)
  && negb (text_eqb (Py.rstrip k line) GnuPG.ARMOR_BEGIN_ENCRYPTED)
  && negb (text_eqb (Py.rstrip k line) GnuPG.ARMOR_END_ENCRYPTED).

(** The first line of the armored data, which ends the headers: it has
    no colon and is not blank. *)
Definition armor_first_data_line (k : strtype) (line : text) : bool :=
  armor_data_line k line
  && negb (Py.contains 58 line)
  && negb (text_eqb (Py.rstrip k line) []).

(** A part whose ['crypto'] dict is there and not empty, as the blocks
    of [parse_text_part] have it. *)
Definition annotated (p : part) : Prop :=
  match crypto p with
  | Some (Crypto None None) | None => False
  | Some _ => True
  end.


(** ** The blocks of a PGP run *)

(** The three blocks of an inline signed message and of an inline
    encrypted message, as [parse_text_part] makes them from the lines of
    their three regions. *)
Definition signed_blocks (charset0 : string) (psi pei : nat)
    (la lb lc : list text) : list part :=
  [new_block charset0 psi pei "pgpbeginsigned" la;
   new_block charset0 psi pei "pgpsignedtext" lb;
   new_block charset0 psi pei "pgpsignature" lc].



(** The lines of a small signed message. *)
Definition signed_head : list text :=
  [u "-----BEGIN PGP SIGNED MESSAGE-----" ++ [LF]; u "Hash: SHA1" ++ [LF]; [LF]].
Definition signed_body : list text := [u "Hello" ++ [LF]].
Definition signed_tail : list text :=
  [u "-----BEGIN PGP SIGNATURE-----" ++ [LF]; u "iQEcBAEBAgAGBQJ" ++ [LF];
   u "-----END PGP SIGNATURE-----" ++ [LF]].

(** ** The cache methods of [Email] *)

(** What the cache methods read of an [Email]: its position in the
    index and its ephemeral id ([None] when it has none). *)
Record Email := MkEmail {
  msg_idx_pos : Z;
  ephemeral_mid : option string
}.

(** The truth value of an integer and of an optional string. *)
Definition int_truth (z : Z) : bool := negb (Z.eqb z 0).

Definition has_ephemeral_mid (e : Email) : bool :=
  match ephemeral_mid e with
  | Some s => negb (String.eqb s "")
  | None => false
  end.

(** [self.msg_idx_pos >= 0 and not self.ephemeral_mid]. *)
Definition cacheable (e : Email) : bool :=
  Z.leb 0 (msg_idx_pos e) && negb (has_ephemeral_mid e).

Section EmailCache.
Context {Message Fd : Type}.

(** [Email.clear_from_parse_cache()]. *)
Definition clear_from_parse_cache (c : @cache Z Message) (e : Email)
  : @cache Z Message :=
  if cacheable e
  then ClearParseCache int_truth c (Some (msg_idx_pos e)) false false
  else c.

(** [Email.update_parse_cache(newmsg)]. *)
Definition update_parse_cache (c : @cache Z Message) (e : Email)
    (newmsg : Message) : @cache Z Message :=
  if cacheable e then
    (fun en : @entry Z Message =>
       if bool_decide (en.1.1 = Some (msg_idx_pos e))
       then (Some (msg_idx_pos e), Some false, Some newmsg)
       else en) <$> c
  else c.

(** [Email._get_parsed_msg(pgpmime, update_cache)]; [get_file] is the
    method handed to [ParseMessage] in the place of a file. *)
Definition _get_parsed_msg (GnuPG_present : bool)
    (parse_fd : Fd -> option Message) (deepcopy : Message -> Message)
    (UnwrapMimeCrypto : Message -> Message)
    (c : @cache Z Message) (e : Email) (get_file : Fd)
    (pgpmime update_cache : bool) : option Message * @cache Z Message :=
  ParseMessage GnuPG_present parse_fd deepcopy UnwrapMimeCrypto c get_file
               (if cacheable e then Some (msg_idx_pos e) else None)
               update_cache pgpmime.

End EmailCache.

(** A cache keyed by index positions: the message at position 0 in the
    plain mode, the one at position 3 in both modes. *)
Definition indexed_cache : @cache Z string :=
  [ (Some 0%Z, Some false, Some "zero");
    (Some 3%Z, Some true, Some "unwrapped");
    (Some 3%Z, Some false, Some "plain") ].


(** A message of three leaves under a multipart container, without a
    placeholder of an encrypted container. *)
Definition plain_walk : list mime_part :=
  [ MimePart "multipart/mixed" None None None "";
    MimePart "text/plain" None None None "";
    MimePart "image/png" None (Some "attachment") (Some "<logo>") "logo.PNG";
    MimePart "application/pdf" None (Some "attachment") None "report.pdf" ].


(** A codec table for the examples: Latin-1 decodes every byte string,
    UTF-8 is given the strings of ASCII bytes only, and no other
    charset is known. *)
Definition strict_codec (cs : string) (s : text) : result text :=
  if String.eqb cs "iso-8859-1" then Ok s
  else if String.eqb cs "utf-8" then
    if forallb (fun c => N.ltb c 128) s then Ok s
    else Raise UnicodeDecodeError
  else Raise LookupError.


(** ** Quoting a display name *)

(** [re.search(r, s)] as a truth value: a match at some position. *)
Fixpoint search_aux (r : Re.re) (prev : option N) (s : text) : bool :=
  match Re.match_length r prev s with
  | Some _ => true
  | None =>
      match s with
      | [] => false
      | c :: s' => search_aux r (Some c) s'
      end
  end.

Definition search (r : Re.re) (s : text) : bool := search_aux r None s.

(** [RE_SHOULD_ESCAPE]: a backslash or a quote. *)
Definition RE_SHOULD_ESCAPE : Re.re :=
  Re.Cls (Re.oneof [BACKSLASH; DQUOTE; SQUOTE]).

(** [RE_SHOULD_QUOTE]: a character that is none of the letters, the
    digits, the two quotes, the space and the signs of [().:/_+@-]. *)
Definition RE_SHOULD_QUOTE : Re.re :=
  Re.Cls (fun c => negb (Re.between 97 122 c || Re.between 65 90 c
                         || Re.between 48 57 c
                         || Re.oneof (u "().:/_ ") c
                         || Re.oneof [SQUOTE; DQUOTE] c
                         || Re.oneof (u "+@-") c)).

(** [escape(strng)]: a backslash goes before each match. *)
Definition escape (s : text) : text :=
  Re.sub RE_SHOULD_ESCAPE (fun m => BACKSLASH :: m) s.

(** [quote(strng)]; [encode_utf8] is [strng.encode('utf-8')] and
    [quopri_header] is [quopri.encodestring(_, False, header=True)]. *)
Definition quote (encode_utf8 : text -> result text)
    (quopri_header : text -> text) (s : text) : result text :=
  if search RE_SHOULD_QUOTE s then
    enc <- encode_utf8 s ;;
    Ok (u "=?utf-8?Q?" ++ quopri_header enc ++ u "?=")
  else Ok ([DQUOTE] ++ escape s ++ [DQUOTE]).

(** What [escape] does to one character. *)
Definition escaped (c : N) : text :=
  if Re.oneof [BACKSLASH; DQUOTE; SQUOTE] c then [BACKSLASH; c] else [c].



(** A pattern that passes at least one character whenever it matches. *)
Fixpoint consumes (r : Re.re) : bool :=
  match r with
  | Re.Cls _ => true
  | Re.Seq r1 r2 => consumes r1 || consumes r2
  | Re.Alt r1 r2 => consumes r1 && consumes r2
  | _ => false
  end.




(** ** The headers that identify the mail program *)

Definition MUA_HEADERS : list string :=
  ["date"; "from"; "to"; "cc"; "subject"; "message-id"; "reply-to";
   "mime-version"; "content-disposition"; "content-type";
   "user-agent"; "list-id"; "list-subscribe"; "list-unsubscribe";
   "x-ms-tnef-correlator"; "x-ms-has-attach"].

Definition DULL_HEADERS : list string := ["in-reply-to"; "references"].

(** [while headers and headers[0].lower() not in MUA_HEADERS:
    headers.pop(0)]. *)
Fixpoint pop_first_loop (headers : list string) : list string :=
  match headers with
  | [] => []
  | h :: rest =>
      if bool_decide (lower h ∈ MUA_HEADERS) then headers
      else pop_first_loop rest
  end.

(** [while headers and headers[-1].lower() not in MUA_HEADERS:
    headers.pop(-1)]; the loop runs at most [len(headers)] times. *)
Fixpoint pop_last_loop (fuel : nat) (headers : list string) : list string :=
  match fuel with
  | 0 => headers
  | S fuel' =>
      match last headers with
      | None => headers
      | Some h =>
          if bool_decide (lower h ∈ MUA_HEADERS) then headers
          else pop_last_loop fuel' (Py.upto_last 1 headers)
      end
  end.

(** [HeaderPrintHeaders(message)], on the list [message.items()]. *)
Definition HeaderPrintHeaders {V} (message : list (string * V))
  : list string :=
  let headers := fst <$> message in
  let headers := pop_first_loop headers in
  let headers := pop_last_loop (length headers) headers in
  filter (fun h => lower h ∉ DULL_HEADERS) headers.

(** A message as a mail program writes it, and the same message after
    two relays have put their headers around it. *)
Definition written_headers : list (string * string) :=
  [("From", "a@b.c"); ("In-Reply-To", "<1@b.c>"); ("X-Mailer", "mutt");
   ("Subject", "hello")].

Definition relayed_headers : list (string * string) :=
  [("Received", "by mx1"); ("Return-Path", "<a@b.c>")]
  ++ written_headers ++ [("X-Spam-Score", "0")].


(** ** Headers that are not to leave the program *)

(** The test of [CleanMessage] on a lower-cased header name. *)
Definition unexposed (lkey : string) : bool :=
  String.prefix "x-mp-internal-" lkey
  || bool_decide (lkey ∈ ["bcc"; "encryption"; "attach-pgp-pubkey"]).

(** The pattern of [CleanMessage]: an [@] and the domain after it, a
    [#] and a key id, and the delimiter or the end that follows. *)
Definition RE_ADDRESS_KEY : Re.re :=
  Re.Seq (Re.Seq (Re.lit "@")
            (Re.Plus (Re.Cls (fun c => negb (Re.oneof (u "<>#") c
                                             || Re.space c)))))
   (Re.Seq (Re.lit "#")
   (Re.Seq (Re.Plus (Re.Cls (fun c => Re.between 97 102 c || N.eqb c 120
                                      || Re.between 65 70 c
                                      || Re.between 48 57 c)))
           (Re.Alt (Re.Cls (fun c => Re.oneof (u ">,") c || Re.space c))
                   Re.Eol))).

(** The replacement of the two groups for a match: the text before the
    [#], and the delimiter when the match ends in one. *)
Definition without_key (m : text) : text :=
  before 35 m
  ++ match last m with
     | Some c => if Re.oneof (u ">,") c || Re.space c then [c] else []
     | None => []
     end.

(** The first loop of [CleanMessage], over [msg.items()]. *)
Definition replacements (items : list (string * text))
  : list (string * option text) :=
  omap (fun kv : string * text =>
          let '(key, value) := kv in
          let lkey := lower key in
          if unexposed lkey then Some (key, None)
          else if bool_decide (lkey ∈ ["to"; "from"; "cc"]) then
            if Py.contains 35 value
            then Some (key, Some (Re.sub RE_ADDRESS_KEY without_key value))
            else None
          else None) items.

(** [del msg[key]]: every header of that name goes, whatever its
    case. *)
Definition del_header (msg : list (string * text)) (key : string)
  : list (string * text) :=
  filter (fun kv => lower kv.1 <> lower key) msg.

(** [CleanMessage(config, msg)], on the headers of [msg]. *)
Definition CleanMessage (msg : list (string * text))
  : list (string * text) :=
  let reps := replacements msg in
  let msg := foldl (fun m r => del_header m r.1) msg reps in
  foldl (fun m r =>
           match r.2 with
           | Some val => if bool_decide (val <> []) then m ++ [(r.1, val)]
                         else m
           | None => m
           end) msg reps.


(** ** Mailbox ids and content ids *)

Definition MBX_ID_LEN : nat := 4.

(** [s[-n:]] of a string. *)
Definition string_last_n (n : nat) (s : string) : string :=
  String.substring (String.length s - n) n s.

(** [FormatMbxId(n)]; [b36] is the base-36 formatter of
    [mailpile.util], which the call uses for an [n] that is no
    string. *)
Definition FormatMbxId (b36 : Z -> string) (n : string + Z) : result string :=
  let n := match n with inl s => s | inr z => b36 z end in
  if Nat.ltb MBX_ID_LEN (String.length n)
  then Raise (ValueError (n +:+ " is too large to be a mailbox ID"))
  else Ok (string_last_n MBX_ID_LEN (lower ("0000" +:+ n))).

(** ['%x' % n]. *)
Definition hex (n : N) : string :=
  HexadecimalString.NilZero.string_of_uint (N.to_hex_uint n).

(** [MakeContentID()], from the value of [GLOBAL_CONTENT_ID] to the id
    and the new value. *)
Definition MakeContentID (GLOBAL_CONTENT_ID : N) : string * N :=
  let g := (GLOBAL_CONTENT_ID + 1)%N in
  let g := (g mod 0xfffffff)%N in
  (hex g, g).

(** The ids of [n] calls of [MakeContentID], one after the other. *)
Fixpoint content_ids (n : nat) (g : N) : list string :=
  match n with
  | 0 => []
  | S n' => (MakeContentID g).1 :: content_ids n' (MakeContentID g).2
  end.


(** * Properties *)

(** ** The line classifier *)

Ltac classify_cases :=
  unfold parse_line_type;
  repeat match goal with
         | |- context [if ?c then _ else _] => destruct c
         end.

Lemma parse_line_type_range k line block :
  parse_line_type k line block ∈ transitions.
Proof. classify_cases; unfold transitions; by repeat constructor. Qed.

Lemma ltype_in_line_types k line block :
  (parse_line_type k line block).2 ∈ line_types.
Proof. classify_cases; unfold line_types; by repeat constructor. Qed.

Lemma ltype_not_bogus k line block :
  (parse_line_type k line block).2 <> "bogus".
Proof. classify_cases; discriminate. Qed.

(** ** Block assembly refines the groups of lines *)

Section AssemblyFacts.
Variable k : strtype.
Variable charset0 : string.
Variables psi pei : nat.

Local Abbreviation blk := (block_of charset0 psi pei).
Local Abbreviation rep := (represents charset0 psi pei).

Lemma join_snoc (cl : list text) (line : text) :
  Py.join (cl ++ [line]) = Py.join cl ++ line.
Proof. unfold Py.join. rewrite concat_app. simpl. by rewrite app_nil_r. Qed.

Lemma upto_last_0 {A} (l : list A) : Py.upto_last 0 l = l.
Proof. unfold Py.upto_last. rewrite Nat.sub_0_r. apply firstn_all. Qed.

Lemma last_n_0 {A} (l : list A) : Py.last_n 0 l = [].
Proof. unfold Py.last_n. rewrite Nat.sub_0_r. by apply drop_all. Qed.

Lemma upto_last_n {A} n (l : list A) : Py.upto_last n l ++ Py.last_n n l = l.
Proof. apply take_drop. Qed.

Lemma lookback_moved ltype S0 t cl pa b :
  lookback k ltype (PtState (S0 ++ [blk (t, cl)]) (length S0) pa b cl)
  = (S0 ++ [blk (t, Py.upto_last (moved k ltype cl) cl)],
     Py.last_n (moved k ltype cl) cl).
Proof.
  unfold lookback, moved. simpl.
  assert (Hal : forall d, alter (set_data d) (length S0) (S0 ++ [blk (t, cl)])
                     = S0 ++ [set_data d (blk (t, cl))]).
  { intros d. rewrite <- (Nat.add_0_r (length S0)) at 1.
    by rewrite alter_app_r. }
  destruct (_ && _ && Py.contains 64 (default [] (Py.from_end 1 cl))).
  - by rewrite Hal.
  - destruct (_ && _ && _ && _).
    + by rewrite Hal.
    + by rewrite upto_last_0, last_n_0.
Qed.

Lemma pt_line_first pa b line :
  pt_line k charset0 psi pei (PtState [bogus charset0 psi pei] 0 pa b []) line
  = Ok (PtState [bogus charset0 psi pei;
                 blk ((parse_line_type k line b).2, [line])]
                1 (pa ++ [1]) (parse_line_type k line b).1 [line]).
Proof.
  pose proof (ltype_not_bogus k line b) as Hnb.
  unfold pt_line. simpl.
  destruct (parse_line_type k line b) as [b1 ltype]. simpl in *.
  rewrite bool_decide_eq_true_2 by done.
  unfold lookback. simpl. rewrite andb_false_r. simpl.
  unfold blk, new_block. simpl. by rewrite app_nil_r.
Qed.

Lemma pt_line_snoc S0 t cl pa b line :
  pt_line k charset0 psi pei
          (PtState (S0 ++ [blk (t, cl)]) (length S0) pa b cl) line
  = let b1 := (parse_line_type k line b).1 in
    let ltype := (parse_line_type k line b).2 in
    if bool_decide (ltype = t)
    then Ok (PtState (S0 ++ [blk (t, cl ++ [line])]) (length S0) pa b1
                     (cl ++ [line]))
    else
      let n := moved k ltype cl in
      Ok (PtState (S0 ++ [blk (t, Py.upto_last n cl);
                          blk (ltype, Py.last_n n cl ++ [line])])
                  (length S0 + 1) (pa ++ [length S0 + 1]) b1
                  (Py.last_n n cl ++ [line])).
Proof.
  unfold pt_line. simpl.
  destruct (parse_line_type k line b) as [b1 ltype]. simpl.
  rewrite list_lookup_total_middle by done.
  change (type (blk (t, cl))) with t.
  destruct (decide (ltype = t)) as [->|Hne].
  - rewrite bool_decide_eq_false_2 by (intros H; by apply H).
    rewrite bool_decide_eq_true_2 by done.
    simpl. rewrite list_lookup_total_middle by done. simpl.
    rewrite <- (Nat.add_0_r (length S0)) at 1.
    rewrite alter_app_r. simpl.
    unfold set_data, blk, new_block. simpl.
    by rewrite join_snoc.
  - rewrite bool_decide_eq_true_2 by done.
    rewrite bool_decide_eq_false_2 by done.
    rewrite lookback_moved.
    set (n := moved k ltype cl).
    set (S1 := S0 ++ [blk (t, Py.upto_last n cl)]).
    simpl.
    rewrite list_lookup_total_middle by done. simpl.
    rewrite <- (Nat.add_0_r (length S1)) at 1.
    rewrite alter_app_r. simpl.
    unfold S1. rewrite length_app, <- app_assoc. simpl.
    unfold set_data, blk, new_block. simpl.
    by rewrite join_snoc.
Qed.

Lemma pt_line_represents b gs st line :
  rep b gs st ->
  exists st',
    pt_line k charset0 psi pei st line = Ok st'
    /\ rep (parse_line_type k line b).1
                  (add_line k (parse_line_type k line b).2 line gs) st'.
Proof.
  intros (Hs & Hp & Hc & Hb & Hcl).
  destruct st as [sto cur pa blk cl]. simpl in *. subst blk.
  destruct gs as [|g gs' _] using rev_ind.
  - simpl in *. subst. rewrite pt_line_first.
    eexists. split; [reflexivity|]. by unfold rep, add_line.
  - destruct g as [t cl0].
    rewrite last_snoc in Hcl. simpl in Hcl.
    rewrite length_app in Hp, Hc. simpl in Hp, Hc.
    rewrite fmap_app, app_comm_cons in Hs.
    remember (bogus charset0 psi pei :: (blk <$> gs')) as S0 eqn:ES0.
    assert (HS0 : length S0 = length gs' + 1).
    { subst S0. simpl. rewrite length_fmap. lia. }
    rewrite <- HS0 in Hc. subst sto cur cl.
    change (blk <$> [(t, cl0)]) with [blk (t, cl0)].
    rewrite pt_line_snoc. simpl.
    unfold add_line. rewrite last_snoc, removelast_last.
    destruct (bool_decide _).
    + eexists. split; [reflexivity|].
      unfold rep. simpl.
      rewrite fmap_app, last_snoc, length_app. simpl.
      repeat split; try done; try lia.
      by rewrite app_comm_cons, <- ES0.
    + eexists. split; [reflexivity|].
      unfold rep. simpl.
      rewrite fmap_app, length_app. simpl.
      repeat split.
      * by rewrite app_comm_cons, <- ES0.
      * rewrite Hp, HS0.
        replace (length gs' + 2) with (S (length gs' + 1)) by lia.
        rewrite seq_S. do 2 f_equal. lia.
      * lia.
      * by rewrite last_app_cons.
Qed.

Lemma represents_init : rep "body" [] (pt_init charset0 psi pei).
Proof. by unfold rep. Qed.

Lemma foldM_represents lines : forall b gs st,
  rep b gs st ->
  exists st',
    foldM (pt_line k charset0 psi pei) st lines = Ok st'
    /\ rep (block_after k b lines) (assemble k b gs lines) st'.
Proof.
  induction lines as [|line rest IH]; intros b gs st Hr.
  - exists st. by split.
  - destruct (pt_line_represents b gs st line Hr) as (st1 & E1 & Hr1).
    simpl. rewrite E1. simpl.
    destruct (parse_line_type k line b) as [b1 ltype] eqn:E. simpl in *.
    by apply IH.
Qed.

Lemma pt_blocks_represents b gs st :
  rep b gs st -> pt_blocks st = blk <$> gs.
Proof.
  intros (Hs & Hp & _). unfold pt_blocks. rewrite Hs, Hp.
  apply list_eq. intros i.
  rewrite !list_lookup_fmap.
  destruct (decide (i < length gs)) as [Hlt|Hge].
  - rewrite lookup_seq_lt by done. simpl.
    destruct (gs !! i) as [g|] eqn:Eg.
    + simpl. f_equal. apply list_lookup_total_correct.
      by rewrite list_lookup_fmap, Eg.
    + apply lookup_ge_None in Eg. lia.
  - rewrite lookup_seq_ge by lia.
    rewrite lookup_ge_None_2 by lia. done.
Qed.

(** [parse_text_part] returns, and returns the blocks of [assemble]. *)
Lemma parse_text_part_assemble data0 :
  parse_text_part k charset0 psi pei data0
  = Ok (blk <$> assemble k "body" [] (Py.splitlines k data0)).
Proof.
  unfold parse_text_part.
  destruct (foldM_represents (Py.splitlines k data0) _ _ _ represents_init)
    as (st & E & Hr).
  rewrite E. simpl. f_equal. by eapply pt_blocks_represents.
Qed.

(** The lines of the groups are the lines read, in order. *)
Lemma add_line_lines ltype line gs :
  concat (snd <$> add_line k ltype line gs) = concat (snd <$> gs) ++ [line].
Proof.
  unfold add_line.
  destruct gs as [|[t cl] gs' _] using rev_ind; [done|].
  rewrite last_snoc, removelast_last.
  destruct (bool_decide _);
    rewrite !fmap_app, !concat_app; simpl; rewrite !app_nil_r.
  - by rewrite app_assoc.
  - by rewrite (app_assoc (Py.upto_last _ _)), upto_last_n, <- app_assoc.
Qed.

Lemma assemble_lines lines : forall b gs,
  concat (snd <$> assemble k b gs lines) = concat (snd <$> gs) ++ lines.
Proof.
  induction lines as [|line rest IH]; intros b gs; simpl.
  - by rewrite app_nil_r.
  - destruct (parse_line_type k line b) as [b1 ltype].
    by rewrite IH, add_line_lines, <- app_assoc.
Qed.

Lemma data_block_of (gs : list group) :
  data <$> (blk <$> gs) = Some <$> (Py.join <$> (snd <$> gs)).
Proof. by rewrite <- !list_fmap_compose. Qed.

End AssemblyFacts.

Lemma concat_join (L : list (list text)) :
  Py.join (Py.join <$> L) = Py.join (concat L).
Proof.
  unfold Py.join. induction L as [|l L IH]; simpl; [done|].
  rewrite concat_app. f_equal. exact IH.
Qed.

(** ** [splitlines(True)] loses nothing *)

Lemma concat_cons_eq {A} (x : list A) (l : list (list A)) :
  concat (x :: l) = x ++ concat l.
Proof. reflexivity. Qed.

Lemma splitlines_aux_cons k cur c s' :
  Py.splitlines_aux k cur (c :: s')
  = if Py.is_linebreak k c then
      match s' with
      | c' :: s'' =>
          if bool_decide (c = CR) && bool_decide (c' = LF)
          then rev (c' :: c :: cur) :: Py.splitlines_aux k [] s''
          else rev (c :: cur) :: Py.splitlines_aux k [] s'
      | [] => [rev (c :: cur)]
      end
    else Py.splitlines_aux k (c :: cur) s'.
Proof. reflexivity. Qed.

Lemma splitlines_aux_join k n : forall s cur,
  length s <= n ->
  Py.join (Py.splitlines_aux k cur s) = rev cur ++ s.
Proof.
  unfold Py.join.
  induction n as [|n IH]; intros s cur Hn.
  - destruct s; [|simpl in Hn; lia].
    destruct cur; simpl; by rewrite ?app_nil_r.
  - destruct s as [|c s'].
    { destruct cur; simpl; by rewrite ?app_nil_r. }
    simpl in Hn. rewrite splitlines_aux_cons.
    destruct (Py.is_linebreak k c).
    + destruct s' as [|c' s''].
      * simpl. by rewrite app_nil_r.
      * simpl in Hn.
        destruct (_ && _); rewrite concat_cons_eq, IH by (simpl; lia);
          simpl; by rewrite <- ?app_assoc.
    + rewrite IH by lia. simpl. by rewrite <- app_assoc.
Qed.

Lemma join_splitlines k s : Py.join (Py.splitlines k s) = s.
Proof. unfold Py.splitlines. by rewrite (splitlines_aux_join k (length s)). Qed.

(** ** C1: the blocks reconstruct the text *)

(** C1.  For every decoded text, of either string type,
    [parse_text_part] returns a list of blocks, each of which has a
    ['data'], and the concatenation of these data in order is the input
    text; this includes the blocks that the quote lookback rewrites. *)
Theorem parse_text_part_reconstructs k charset0 psi pei (data0 : text) :
  exists (blocks : list part) (ds : list text),
    parse_text_part k charset0 psi pei data0 = Ok blocks
    /\ data <$> blocks = Some <$> ds
    /\ Py.join ds = data0.
Proof.
  eexists _, _. split; [apply parse_text_part_assemble|].
  split; [apply data_block_of|].
  rewrite concat_join, assemble_lines. simpl. apply join_splitlines.
Qed.

(** ** C8: the classifier is total *)

(** C8.  [parse_line_type] is a function of the block state and the
    line: for every pair, also for a block state that is none of the
    known names, it yields exactly one pair, one of the ten the source
    returns; the operations it applies ([in], [==], [rstrip],
    [startswith]) are defined on every text, so no case raises.  A pair
    that no rule claims yields [('body', 'text')]. *)
Theorem parse_line_type_total k (line : text) (block : string) :
  (exists! r, r ∈ transitions /\ parse_line_type k line block = r)
  /\ (claimed k line block = false ->
      parse_line_type k line block = ("body", "text")).
Proof.
  split.
  - exists (parse_line_type k line block). split.
    + split; [apply parse_line_type_range|done].
    + by intros r [_ <-].
  - unfold claimed, parse_line_type.
    intros H.
    repeat match type of H with
           | (_ || _) = false => apply orb_false_elim in H as [H ?]
           end.
    repeat match goal with
           | E : ?c = false |- context [if ?c then _ else _] => rewrite E
           end.
    done.
Qed.

Lemma parse_line_type_total_witness :
  (exists! r, r ∈ transitions
              /\ parse_line_type Unicode (u "Hello" ++ [LF]) "quote" = r)
  /\ parse_line_type Unicode (u "Hello" ++ [LF]) "quote" = ("body", "text").
Proof.
  destruct (parse_line_type_total Unicode (u "Hello" ++ [LF]) "quote")
    as [H1 H2].
  split; [exact H1|]. apply H2. reflexivity.
Defined.

(** ** C6: the signature marker *)

(** C6, as the code has it.  In the states body and quote a line opens
    the signature exactly when it is one of ["-- \n"], ["-- \r\n"],
    ["- --\n"] and ["- --\r\n"]: with the historic ["- "] prefix the
    marker has no trailing space.  The text of the lines ["Hello\n"],
    ["-- \n"], ["Sent from my phone\n"] gives two blocks, a text block
    with the first line and a signature block with the other two. *)
Theorem marker_opens_signature k charset0 psi pei (line : text) (block : string) :
  (block ∈ ["body"; "quote"] ->
   (parse_line_type k line block = ("signature", "signature")
    <-> line ∈ signature_markers))
  /\ Py.splitlines k hello_text = hello_lines
  /\ parse_text_part k charset0 psi pei hello_text
     = Ok [new_block charset0 psi pei "text" [u "Hello" ++ [LF]];
           new_block charset0 psi pei "signature"
                     [u "-- " ++ [LF]; u "Sent from my phone" ++ [LF]]].
Proof.
  split; [|split; destruct k; reflexivity].
  intros Hb. split.
  - intros H. unfold parse_line_type in H.
    destruct (bool_decide (line ∈ signature_markers)) eqn:E.
    { by apply bool_decide_eq_true_1 in E. }
    rewrite andb_false_r in H.
    assert (Hns : bool_decide (block = "signature") = false).
    { apply bool_decide_eq_false_2. intros ->.
      apply elem_of_cons in Hb as [Hb|Hb]; [discriminate|].
      apply elem_of_cons in Hb as [Hb|Hb]; [discriminate|].
      by apply elem_of_nil in Hb. }
    rewrite Hns in H.
    repeat match type of H with
           | context [if ?c then _ else _] => destruct c
           end; discriminate.
  - intros Hl. unfold parse_line_type.
    rewrite (bool_decide_eq_true_2 _ Hb), (bool_decide_eq_true_2 _ Hl).
    done.
Qed.

Lemma marker_opens_signature_witness :
  parse_line_type Unicode (u "-- " ++ [CR; LF]) "quote"
  = ("signature", "signature").
Proof.
  destruct (marker_opens_signature Unicode "utf-8" 0 1 (u "-- " ++ [CR; LF]) "quote")
    as [H _].
  apply H.
  - by repeat constructor.
  - unfold signature_markers. by repeat constructor.
Defined.

(** A line that is ["-- "] with the historic ["- "] prefix and a line
    feed is not a marker: it is classified as body text. *)
Lemma prefixed_marker_with_space_is_text :
  parse_line_type Unicode (u "- " ++ u "-- " ++ [LF]) "body" = ("body", "text")
  /\ parse_line_type Unicode (u "- " ++ u "-- " ++ [LF]) "body"
     <> ("signature", "signature").
Proof. split; [reflexivity|discriminate]. Qed.

(** ** C10: the marker needs its line ending *)

Lemma bare_marker_not_signature k (block : string) :
  block <> "signature" ->
  (parse_line_type k (u "-- ") block).2 <> "signature".
Proof.
  intros Hb. unfold parse_line_type.
  assert (E : bool_decide (u "-- " ∈ signature_markers) = false)
    by reflexivity.
  rewrite E, andb_false_r.
  rewrite (bool_decide_eq_false_2 (block = "signature") Hb).
  repeat match goal with
         | |- context [if ?c then _ else _] => destruct c
         end; discriminate.
Qed.

Lemma ends_with_linebreak_cons k c c' s :
  ends_with_linebreak k (c :: c' :: s) = ends_with_linebreak k (c' :: s).
Proof. unfold ends_with_linebreak. by rewrite last_cons_cons. Qed.

Lemma splitlines_aux_app k (x : text) n :
  head x <> Some LF ->
  forall s cur,
    length s <= n ->
    ends_with_linebreak k s = true ->
    Py.splitlines_aux k cur (s ++ x)
    = Py.splitlines_aux k cur s ++ Py.splitlines_aux k [] x.
Proof.
  intros Hx. induction n as [|n IH]; intros s cur Hn He.
  { destruct s; [discriminate He|simpl in Hn; lia]. }
  destruct s as [|c s']; [discriminate He|].
  simpl in Hn.
  change ((c :: s') ++ x) with (c :: (s' ++ x)).
  rewrite !splitlines_aux_cons.
  destruct (Py.is_linebreak k c) eqn:Ec.
  - destruct s' as [|c' s''].
    + simpl. destruct x as [|c' x']; [done|].
      rewrite (bool_decide_eq_false_2 (c' = LF)).
      * by rewrite andb_false_r.
      * intros ->. by apply Hx.
    + rewrite ends_with_linebreak_cons in He.
      change ((c' :: s'') ++ x) with (c' :: (s'' ++ x)).
      cbv iota.
      destruct (_ && _).
      * rewrite <- app_comm_cons. f_equal.
        destruct s'' as [|c'' s3]; [reflexivity|].
        rewrite ends_with_linebreak_cons in He.
        apply IH; [simpl in *; lia|done].
      * rewrite <- app_comm_cons. f_equal.
        change (c' :: (s'' ++ x)) with ((c' :: s'') ++ x).
        apply IH; [simpl in *; lia|done].
  - destruct s' as [|c' s''].
    + unfold ends_with_linebreak in He. simpl in He. congruence.
    + rewrite ends_with_linebreak_cons in He.
      apply IH; [simpl in *; lia|done].
Qed.

Lemma splitlines_app_line k (s x : text) :
  head x <> Some LF ->
  s = [] \/ ends_with_linebreak k s = true ->
  Py.splitlines k (s ++ x) = Py.splitlines k s ++ Py.splitlines k x.
Proof.
  intros Hx [->|He]; [done|].
  by apply (splitlines_aux_app k x (length s)).
Qed.

Section MarkerFacts.
Variable k : strtype.

Lemma assemble_cons line rest b gs :
  assemble k b gs (line :: rest)
  = assemble k (parse_line_type k line b).1
             (add_line k (parse_line_type k line b).2 line gs) rest.
Proof. simpl. by destruct (parse_line_type k line b). Qed.

Lemma assemble_app l1 : forall l2 b gs,
  assemble k b gs (l1 ++ l2)
  = assemble k (block_after k b l1) (assemble k b gs l1) l2.
Proof.
  induction l1 as [|line rest IH]; intros l2 b gs; [done|].
  simpl. destruct (parse_line_type k line b) as [b1 ltype]. simpl.
  apply IH.
Qed.

(** The last group has the type of the last line. *)
Lemma add_line_last ltype line gs :
  exists gs' cl, add_line k ltype line gs = gs' ++ [(ltype, cl)].
Proof.
  unfold add_line.
  destruct (last gs) as [[t cl]|]; [|by exists [], [line]].
  destruct (decide (ltype = t)) as [->|Hne].
  - rewrite bool_decide_eq_true_2 by done. by eexists _, _.
  - rewrite bool_decide_eq_false_2 by done.
    exists (removelast gs ++ [(t, Py.upto_last (moved k ltype cl) cl)]),
           (Py.last_n (moved k ltype cl) cl ++ [line]).
    by rewrite <- app_assoc.
Qed.

Lemma signature_only_with_type line b :
  (parse_line_type k line b).1 = "signature" ->
  (parse_line_type k line b).2 = "signature".
Proof. classify_cases; simpl; done. Qed.

Lemma assemble_signature_open lines : forall b gs,
  signature_open b gs ->
  signature_open (block_after k b lines) (assemble k b gs lines).
Proof.
  induction lines as [|line rest IH]; intros b gs Hi; [done|].
  simpl.
  pose proof (signature_only_with_type line b) as Hs.
  destruct (parse_line_type k line b) as [b1 ltype]. simpl in *.
  apply IH. intros ->.
  rewrite Hs by done. apply add_line_last.
Qed.

(** A line either joins the open block or opens a block of its type. *)
Lemma add_line_types ltype line (gs : list group) :
  fst <$> add_line k ltype line gs
  = match last (fst <$> gs) with
    | Some t =>
        if bool_decide (ltype = t) then fst <$> gs else (fst <$> gs) ++ [ltype]
    | None => [ltype]
    end.
Proof.
  unfold add_line.
  destruct gs as [|[t cl] gs' _] using rev_ind; [done|].
  rewrite fmap_app, last_snoc, removelast_last. simpl.
  rewrite last_snoc.
  destruct (bool_decide _); rewrite !fmap_app; simpl; [done|].
  by rewrite <- app_assoc.
Qed.

Lemma bare_marker_keeps_count (b : string) (gs : list group) :
  signature_open b gs ->
  filter (fun t : string => t = "signature")
         (fst <$> add_line k (parse_line_type k (u "-- ") b).2 (u "-- ") gs)
  = filter (fun t : string => t = "signature") (fst <$> gs).
Proof.
  intros Hi. rewrite add_line_types.
  destruct (decide (b = "signature")) as [->|Hb].
  - destruct Hi as (gs' & cl & ->); [done|].
    rewrite fmap_app. simpl. rewrite last_snoc.
    replace (parse_line_type k (u "-- ") "signature")
      with ("signature", "signature") by (by destruct k).
    done.
  - pose proof (bare_marker_not_signature k b Hb) as Hn.
    destruct (last (fst <$> gs)) as [t|] eqn:El.
    + destruct (bool_decide _); [done|].
      rewrite filter_app, filter_cons_False by done.
      by rewrite filter_nil, app_nil_r.
    + apply last_None in El. rewrite El.
      by rewrite filter_cons_False.
Qed.

End MarkerFacts.

(** C10.  A line that is ["-- "] without a line ending is, in the state
    body, classified as body text.  Hence a text that ends in such a
    line has as many signature blocks as the text before that line: the
    unterminated marker opens none. *)
Theorem unterminated_marker k charset0 psi pei (data0 : text) :
  parse_line_type k (u "-- ") "body" = ("body", "text")
  /\ (data0 = [] \/ ends_with_linebreak k data0 = true ->
      exists blocks blocks',
        parse_text_part k charset0 psi pei data0 = Ok blocks
        /\ parse_text_part k charset0 psi pei (data0 ++ u "-- ") = Ok blocks'
        /\ signature_blocks blocks' = signature_blocks blocks).
Proof.
  split; [by destruct k|].
  intros Hd. eexists _, _.
  split; [apply parse_text_part_assemble|].
  split; [apply parse_text_part_assemble|].
  rewrite splitlines_app_line by done.
  replace (Py.splitlines k (u "-- ")) with [u "-- "] by (by destruct k).
  rewrite assemble_app.
  rewrite assemble_cons. cbn [assemble].
  assert (Hi : signature_open (block_after k "body" (Py.splitlines k data0))
                              (assemble k "body" [] (Py.splitlines k data0))).
  { apply assemble_signature_open. intros H. discriminate H. }
  pose proof (bare_marker_keeps_count k _ _ Hi) as Hk.
  unfold signature_blocks.
  rewrite <- !list_fmap_compose.
  f_equal. exact Hk.
Qed.

Lemma unterminated_marker_witness :
  exists blocks blocks',
    parse_text_part Unicode "utf-8" 0 1 (u "Hello" ++ [LF]) = Ok blocks
    /\ parse_text_part Unicode "utf-8" 0 1 ((u "Hello" ++ [LF]) ++ u "-- ")
       = Ok blocks'
    /\ signature_blocks blocks' = signature_blocks blocks.
Proof.
  destruct (unterminated_marker Unicode "utf-8" 0 1 (u "Hello" ++ [LF]))
    as [_ H].
  apply H. right. reflexivity.
Defined.

(** ** C7: the quote lookback *)

Lemma last_n_app {A} (l1 l2 : list A) : Py.last_n (length l2) (l1 ++ l2) = l2.
Proof.
  unfold Py.last_n. rewrite length_app.
  replace (length l1 + length l2 - length l2) with (length l1) by lia.
  by rewrite drop_app_length.
Qed.

Lemma from_end_app {A} (l1 l2 : list A) :
  l2 <> [] -> Py.from_end (length l2) (l1 ++ l2) = head l2.
Proof.
  intros Hl2. unfold Py.from_end. rewrite length_app.
  rewrite bool_decide_eq_true_2.
  - replace (length l1 + length l2 - length l2) with (length l1) by lia.
    rewrite lookup_app_r by lia. rewrite Nat.sub_diag. by destruct l2.
  - destruct l2; [done|simpl; lia].
Qed.

Lemma from_end_1 {A} (l : list A) x : Py.from_end 1 (l ++ [x]) = Some x.
Proof. by apply (from_end_app l [x]). Qed.

Lemma from_end_2 {A} (l : list A) y x :
  Py.from_end 2 (l ++ [y; x]) = Some y.
Proof. by apply (from_end_app l [y; x]). Qed.

Lemma last_n_1 {A} (l : list A) x : Py.last_n 1 (l ++ [x]) = [x].
Proof. apply (last_n_app l [x]). Qed.

Lemma last_n_2 {A} (l : list A) y x : Py.last_n 2 (l ++ [y; x]) = [y; x].
Proof. apply (last_n_app l [y; x]). Qed.

(** The source's slices take the lines that [attribution] names. *)
Lemma last_n_moved k ltype (cl : list text) :
  Py.last_n (moved k ltype cl) cl = attribution k ltype cl.
Proof.
  unfold moved, attribution.
  destruct (bool_decide (ltype = "quote")); simpl; [|apply last_n_0].
  destruct cl as [|l1 cl _] using rev_ind; [done|].
  rewrite reverse_snoc, from_end_1. simpl.
  rewrite bool_decide_eq_true_2 by (by destruct cl).
  destruct (Py.contains 64 l1); simpl; [apply last_n_1|].
  destruct cl as [|l2 cl _] using rev_ind; [done|].
  rewrite reverse_snoc.
  destruct cl as [|l3 cl _] using rev_ind; [done|].
  rewrite reverse_snoc.
  rewrite bool_decide_eq_true_2 by (rewrite !length_app; simpl; lia).
  rewrite <- (app_assoc _ [l2] [l1]). simpl.
  rewrite from_end_2. simpl.
  destruct (Py.contains 64 l2 && _); [|apply last_n_0].
  apply last_n_2.
Qed.

(** C7, as the code has it.  After any lines read, the blocks divide
    these lines among them, in order: the blocks before the last hold
    the lines of [earlier], the last block holds the lines [clines]
    that follow them.  The next line either joins the last block or
    starts a new one.  When it starts one, the lines of [attribution]
    leave the last block for the new one: for a new quote block the
    last line when it contains [@], else the last two lines when the
    block has at least three lines, the last but one contains [@] and
    the last is blank; in every other case, and for every other type of
    block, no line.  All other lines stay where they are: the blocks
    before the last are not touched, and the last block keeps its other
    lines. *)
Theorem lookback_moves_attribution k charset0 psi pei
    (lines : list text) (line : text) (st : pt_state) :
  foldM (pt_line k charset0 psi pei) (pt_init charset0 psi pei) lines = Ok st ->
  exists st',
    pt_line k charset0 psi pei st line = Ok st'
    /\ let ltype := (parse_line_type k line (block st)).2 in
       match last (pt_blocks st) with
       | None =>
           lines = []
           /\ pt_blocks st' = [new_block charset0 psi pei ltype [line]]
       | Some prev =>
           (exists earlier : list (list text),
              lines = concat earlier ++ clines st
              /\ data <$> removelast (pt_blocks st)
                 = (fun ls => Some (Py.join ls)) <$> earlier)
           /\ data prev = Some (Py.join (clines st))
           /\ if bool_decide (ltype = type prev)
              then pt_blocks st'
                   = removelast (pt_blocks st)
                     ++ [set_data (Py.join (clines st ++ [line])) prev]
              else exists kept,
                  clines st = kept ++ attribution k ltype (clines st)
                  /\ pt_blocks st'
                     = removelast (pt_blocks st)
                       ++ [set_data (Py.join kept) prev;
                           new_block charset0 psi pei ltype
                             (attribution k ltype (clines st) ++ [line])]
       end.
Proof.
  intros Hrun.
  destruct (foldM_represents k charset0 psi pei lines _ _ _
              (represents_init charset0 psi pei)) as (st0 & E0 & Hr).
  rewrite Hrun in E0. injection E0 as <-.
  destruct (pt_line_represents k charset0 psi pei _ _ _ line Hr)
    as (st' & E' & Hr').
  exists st'. split; [done|].
  rewrite (pt_blocks_represents _ _ _ _ _ _ Hr),
          (pt_blocks_represents _ _ _ _ _ _ Hr').
  destruct Hr as (_ & _ & _ & Hb & Hcl). rewrite Hb, Hcl.
  pose proof (assemble_lines k lines "body" []) as Hlines.
  simpl in Hlines.
  set (gs := assemble k "body" [] lines) in *.
  set (b := block_after k "body" lines).
  clearbody gs. cbv zeta. unfold add_line.
  destruct gs as [|[t cl] gs' _] using rev_ind; [done|].
  rewrite fmap_app, !last_snoc, !removelast_last. simpl.
  rewrite last_snoc, removelast_last.
  split.
  { exists (snd <$> gs'). split.
    - rewrite <- Hlines, fmap_app, concat_app. simpl. by rewrite app_nil_r.
    - by rewrite <- !list_fmap_compose. }
  split; [done|].
  destruct (bool_decide _); rewrite fmap_app; simpl; [done|].
  exists (Py.upto_last (moved k (parse_line_type k line b).2 cl) cl).
  rewrite <- last_n_moved. by rewrite upto_last_n.
Qed.

Lemma lookback_moves_attribution_witness :
  exists st',
    pt_line Unicode "utf-8" 0 1 attribution_state (u ">q" ++ [LF]) = Ok st'
    /\ summary (pt_blocks st')
       = [("text", Some (u "x" ++ [LF]));
          ("quote", Some (u "On Monday a@b wrote:" ++ [LF] ++ [LF]
                          ++ u ">q" ++ [LF]))].
Proof.
  assert (E0 : foldM (pt_line Unicode "utf-8" 0 1) (pt_init "utf-8" 0 1)
                     attribution_lines = Ok attribution_state)
    by (vm_compute; reflexivity).
  destruct (lookback_moves_attribution Unicode "utf-8" 0 1 attribution_lines
              (u ">q" ++ [LF]) attribution_state E0) as (st' & E & _).
  exists st'. split; [exact E|].
  vm_compute in E. injection E as <-. vm_compute. reflexivity.
Defined.

(** An attribution line and a blank line that are the whole previous
    block stay in it; and the blank line that moves is the one after
    the attribution line, not one before it. *)
Lemma lookback_two_line_block_stays :
  (summary <$> match parse_text_part Unicode "utf-8" 0 1
                       (u "a@b" ++ [LF] ++ [LF] ++ u ">q" ++ [LF]) with
               | Ok l => Some l | Raise _ => None end)
  = Some [("text", Some (u "a@b" ++ [LF] ++ [LF]));
          ("quote", Some (u ">q" ++ [LF]))]
  /\ (summary <$> match parse_text_part Unicode "utf-8" 0 1
                       (u "x" ++ [LF] ++ u "a@b" ++ [LF] ++ [LF]
                        ++ u ">q" ++ [LF]) with
                  | Ok l => Some l | Raise _ => None end)
     = Some [("text", Some (u "x" ++ [LF]));
             ("quote", Some (u "a@b" ++ [LF] ++ [LF] ++ u ">q" ++ [LF]))].
Proof. split; vm_compute; reflexivity. Qed.

(** ** C9: the parse cache *)

Section ParseCacheFacts.
Context {Id Message Fd : Type} `{EqDecision Id}.
Variable GnuPG_present : bool.
Variable parse_fd : Fd -> option Message.
Variable deepcopy : Message -> Message.
Variable UnwrapMimeCrypto : Message -> Message.

Lemma cache_insert_length (c : @cache Id Message) i pm m :
  length (cache_insert c i pm m) <= 25.
Proof.
  unfold cache_insert. simpl. rewrite length_take. lia.
Qed.

(** A hit is an entry with both components of the key, and the first
    such entry. *)
Lemma cache_lookup_Some (c : @cache Id Message) i pm m :
  cache_lookup c i pm = Some m ->
  exists n, c !! n = Some (Some i, Some pm, m)
            /\ forall j e, j < n -> c !! j = Some e ->
                 e.1.1 <> Some i \/ e.1.2 <> Some pm.
Proof.
  induction c as [|[[cid pm'] m'] c IH]; simpl; [done|].
  destruct (bool_decide (cid = Some i)) eqn:E1;
    [destruct (bool_decide (pm' = Some pm)) eqn:E2|]; simpl.
  - intros [= ->]. apply bool_decide_eq_true_1 in E1, E2. subst.
    exists 0. split; [done|]. intros j e Hj. lia.
  - intros (n & Hn & Hfirst)%IH. exists (S n). split; [done|].
    intros [|j] e Hj He.
    + injection He as <-. right. by apply bool_decide_eq_false_1 in E2.
    + apply (Hfirst j); [lia|done].
  - intros (n & Hn & Hfirst)%IH. exists (S n). split; [done|].
    intros [|j] e Hj He.
    + injection He as <-. left. by apply bool_decide_eq_false_1 in E1.
    + apply (Hfirst j); [lia|done].
Qed.

Lemma cache_lookup_None (c : @cache Id Message) i pm :
  cache_lookup c i pm = None ->
  forall e, e ∈ c -> e.1.1 <> Some i \/ e.1.2 <> Some pm.
Proof.
  induction c as [|[[cid pm'] m'] c IH]; simpl; intros Hl e He.
  { by apply elem_of_nil in He. }
  destruct (bool_decide (cid = Some i)) eqn:E1;
    [destruct (bool_decide (pm' = Some pm)) eqn:E2|]; simpl in Hl;
    try discriminate;
    apply elem_of_cons in He as [->|He]; try (by apply IH); simpl.
  - right. by apply bool_decide_eq_false_1 in E2.
  - left. by apply bool_decide_eq_false_1 in E1.
Qed.

(** What a call of [ParseMessage_plain] leaves in the cache. *)
Lemma ParseMessage_plain_cache (c : @cache Id Message) (fd : Fd) cache_id upd :
  let '(r, c') := ParseMessage_plain parse_fd c fd cache_id upd in
  c' = c
  \/ exists i m, cache_id = Some i /\ r = Some m
                 /\ c' = cache_insert c i false m.
Proof.
  unfold ParseMessage_plain.
  destruct (match cache_id with Some i => _ | None => None end);
    [by left|].
  destruct (parse_fd fd) as [m|]; [|by left].
  destruct cache_id as [i|]; [|by left].
  right. by exists i, m.
Qed.

(** The first entry with both components of the key is the hit. *)
Lemma cache_lookup_first (c : @cache Id Message) i pm n r :
  c !! n = Some (Some i, Some pm, r) ->
  (forall j e, j < n -> c !! j = Some e ->
     e.1.1 <> Some i \/ e.1.2 <> Some pm) ->
  cache_lookup c i pm = Some r.
Proof.
  revert n. induction c as [|[[cid pm'] m'] c IH]; intros n Hn Hfirst;
    [done|].
  destruct n as [|n].
  - injection Hn as -> -> ->. simpl. by rewrite !bool_decide_eq_true_2.
  - simpl.
    destruct (Hfirst 0 (cid, pm', m')) as [Hne|Hne]; [lia|done| |];
      simpl in Hne.
    + rewrite (bool_decide_eq_false_2 _ Hne). simpl.
      apply (IH n); [done|]. intros j e Hj He. apply (Hfirst (S j)); [lia|done].
    + rewrite (bool_decide_eq_false_2 (pm' = Some pm) Hne), andb_false_r.
      apply (IH n); [done|]. intros j e Hj He. apply (Hfirst (S j)); [lia|done].
Qed.

Lemma cache_lookup_absent (c : @cache Id Message) i pm :
  (forall e, e ∈ c -> e.1.1 <> Some i \/ e.1.2 <> Some pm) ->
  cache_lookup c i pm = None.
Proof.
  induction c as [|[[cid pm'] m'] c IH]; intros H; [done|].
  simpl. destruct (H (cid, pm', m')) as [Hne|Hne]; [by left| |]; simpl in Hne.
  - rewrite (bool_decide_eq_false_2 _ Hne). simpl.
    apply IH. intros e He. apply H. by right.
  - rewrite (bool_decide_eq_false_2 (pm' = Some pm) Hne), andb_false_r.
    apply IH. intros e He. apply H. by right.
Qed.

(** C9.  An insertion keeps the 24 most recent entries and puts the new
    entry, keyed by the message identity and the decode mode, in front
    of them, so that the cache holds at most 25 entries and the entries
    from position 24 on, the oldest, are gone.  A lookup returns the
    message of the first entry whose identity and mode both equal the
    ones asked for, and falls through when no entry has both.
    [ParseMessage] does just this to the cache.  Unless it is told to
    update, it returns the message of the first entry whose identity
    and mode are the ones of the call, and leaves the cache as it is.
    When it is told to update, or no entry has both, it either has
    nothing to return (the file does not parse, or the first plain
    entry of the message holds nothing) and leaves the cache as it is, or it
    returns a message, puts its entry in front and keeps the first 24
    entries of the cache as it was (for the PGP/MIME mode of a message
    it had to parse: as it was after the insertion of the plain
    message), and nothing else. *)
Theorem parse_cache_bounded (c : @cache Id Message) (fd : Fd) (i : Id)
    (pm upd : bool) (m : Message) :
  (cache_insert c i pm m = (Some i, Some pm, Some m) :: take 24 c
   /\ length (cache_insert c i pm m) <= 25
   /\ cache_lookup (cache_insert c i pm m) i pm = Some (Some m))
  /\ (forall r, cache_lookup c i pm = Some r ->
        exists n, c !! n = Some (Some i, Some pm, r)
                  /\ forall j e, j < n -> c !! j = Some e ->
                       e.1.1 <> Some i \/ e.1.2 <> Some pm)
  /\ (cache_lookup c i pm = None ->
        forall e, e ∈ c -> e.1.1 <> Some i \/ e.1.2 <> Some pm)
  /\ (let '(r, c') :=
        ParseMessage GnuPG_present parse_fd deepcopy UnwrapMimeCrypto
                     c fd (Some i) upd pm in
      let mode := pm && GnuPG_present in
      (c' = c
       \/ (length c' <= 25
           /\ exists m', r = Some m'
                /\ head c' = Some (Some i, Some mode, Some m')))
      /\ (upd = false ->
          forall n r0,
            c !! n = Some (Some i, Some mode, r0) ->
            (forall j e, j < n -> c !! j = Some e ->
               e.1.1 <> Some i \/ e.1.2 <> Some mode) ->
            r = r0 /\ c' = c)
      /\ (upd = true
          \/ (forall e, e ∈ c -> e.1.1 <> Some i \/ e.1.2 <> Some mode) ->
          (r = None /\ c' = c
           /\ (parse_fd fd = None
               \/ (mode = true
                   /\ exists n,
                        c !! n = Some (Some i, Some false, None)
                        /\ forall j e, j < n -> c !! j = Some e ->
                             e.1.1 <> Some i \/ e.1.2 <> Some false)))
          \/ exists m0 c0,
               r = Some (if mode then UnwrapMimeCrypto (deepcopy m0) else m0)
               /\ c' = (Some i, Some mode, r) :: take 24 c0
               /\ length c' <= 25
               /\ ((parse_fd fd = Some m0
                    /\ c0 = if mode
                            then (Some i, Some false, Some m0) :: take 24 c
                            else c)
                   \/ (mode = true /\ c0 = c
                       /\ exists n,
                            c !! n = Some (Some i, Some false, Some m0)
                            /\ forall j e, j < n -> c !! j = Some e ->
                                 e.1.1 <> Some i \/ e.1.2 <> Some false)))).
Proof.
  split; [|split; [|split]].
  - split; [done|]. split; [apply cache_insert_length|].
    simpl. by rewrite !bool_decide_eq_true_2.
  - intros r. apply cache_lookup_Some.
  - apply cache_lookup_None.
  - assert (Hmiss : upd = true
              \/ (forall e, e ∈ c ->
                    e.1.1 <> Some i \/ e.1.2 <> Some (pm && GnuPG_present)) ->
              (if upd then None else cache_lookup c i (pm && GnuPG_present))
              = None).
    { intros [->|Hno]; [done|]. destruct upd; [done|].
      by apply cache_lookup_absent. }
    assert (Hhit : upd = false -> forall n r0,
              c !! n = Some (Some i, Some (pm && GnuPG_present), r0) ->
              (forall j e, j < n -> c !! j = Some e ->
                 e.1.1 <> Some i \/ e.1.2 <> Some (pm && GnuPG_present)) ->
              (if upd then None else cache_lookup c i (pm && GnuPG_present))
              = Some r0).
    { intros -> n r0 Hn Hfirst. by eapply cache_lookup_first. }
    unfold ParseMessage, ParseMessage_plain.
    destruct (pm && GnuPG_present) eqn:Epm.
    + destruct (if upd then None else cache_lookup c i true) as [hit|] eqn:Eh.
      { split; [by left|]. split.
        - intros Hu n r0 Hn Hfirst.
          by injection (Hhit Hu n r0 Hn Hfirst) as ->.
        - intros Hm. by specialize (Hmiss Hm). }
      destruct (cache_lookup c i false) as [[m0|]|] eqn:Ep.
      * split; [right; split; [apply cache_insert_length|by eexists]|].
        split.
        { intros Hu n r0 Hn Hfirst. by specialize (Hhit Hu n r0 Hn Hfirst). }
        intros _. right. exists m0, c. split; [done|]. split; [done|].
        split; [apply cache_insert_length|].
        right. split; [done|]. split; [done|]. by apply cache_lookup_Some.
      * split; [by left|]. split.
        { intros Hu n r0 Hn Hfirst. by specialize (Hhit Hu n r0 Hn Hfirst). }
        intros _. left. split; [done|]. split; [done|].
        right. split; [done|]. by apply cache_lookup_Some.
      * destruct (parse_fd fd) as [m0|] eqn:Ef.
        -- split; [right; split; [apply cache_insert_length|by eexists]|].
           split.
           { intros Hu n r0 Hn Hfirst.
             by specialize (Hhit Hu n r0 Hn Hfirst). }
           intros _. right. exists m0, (cache_insert c i false m0).
           split; [done|]. split; [done|].
           split; [apply cache_insert_length|]. by left.
        -- split; [by left|]. split.
           { intros Hu n r0 Hn Hfirst.
             by specialize (Hhit Hu n r0 Hn Hfirst). }
           intros _. left. split; [done|]. split; [done|]. by left.
    + destruct (if upd then None else cache_lookup c i false) as [hit|] eqn:Eh.
      { split; [by left|]. split.
        - intros Hu n r0 Hn Hfirst.
          by injection (Hhit Hu n r0 Hn Hfirst) as ->.
        - intros Hm. by specialize (Hmiss Hm). }
      destruct (parse_fd fd) as [m0|] eqn:Ef.
      * split; [right; split; [apply cache_insert_length|by eexists]|].
        split.
        { intros Hu n r0 Hn Hfirst. by specialize (Hhit Hu n r0 Hn Hfirst). }
        intros _. right. exists m0, c. split; [done|]. split; [done|].
        split; [apply cache_insert_length|]. by left.
      * split; [by left|]. split.
        { intros Hu n r0 Hn Hfirst. by specialize (Hhit Hu n r0 Hn Hfirst). }
        intros _. left. split; [done|]. split; [done|]. by left.
Qed.

End ParseCacheFacts.

Lemma parse_cache_bounded_witness :
  (exists n, cache_insert full_cache 7 true "new" !! n
             = Some (Some 3, Some false, Some "old"))
  /\ length (cache_insert full_cache 7 true "new") = 25
  /\ cache_lookup (cache_insert full_cache 7 true "new") 24 false = None.
Proof.
  destruct (parse_cache_bounded (Fd := unit) true (fun _ => Some "parsed")
              id id (cache_insert full_cache 7 true "new") tt 3 false false
              "m") as (_ & H & _).
  split; [|split; vm_compute; reflexivity].
  destruct (H (Some "old")) as (n & Hn & _); [vm_compute; reflexivity|].
  by exists n.
Defined.

(** ** C2: the two attachment counters *)

(** C2 fails on the code.  On an encrypted message the tree builder
    skips the [application/pgp-encrypted] part and gives the encrypted
    data the count 1, so its attachment is ['part:1']; the attachment
    finder counts the [application/pgp-encrypted] part as 1 and the
    encrypted data as 2, so ['part:1'] finds the other part. *)
Theorem attachment_counts_differ :
  tree_counts encrypted_message = [(1, pgp_data_part)]
  /\ find_counts encrypted_message
     = [(1, pgp_version_part); (2, pgp_data_part)]
  /\ (att_count <$> tree_attachments encrypted_message) = [1]
  /\ (att_part <$> tree_attachments encrypted_message) = [pgp_data_part]
  /\ _find_attachments encrypted_message (part_aid 1) false
     = [(1, pgp_version_part)].
Proof. repeat split; vm_compute; reflexivity. Qed.

(** Where no part is a placeholder of an encrypted container, the two
    counters agree. *)
Lemma find_walk_star count walk :
  (forall p, p ∈ walk ->
     String.eqb (content_type p) "application/pgp-encrypted" = false
     /\ is_crypted_container p = false) ->
  find_walk "*" false count walk = (tree_walk count walk).1.
Proof.
  revert count. induction walk as [|p rest IH]; intros count Hw; [done|].
  destruct (Hw p) as [H1 H2]; [by left|].
  simpl. unfold tree_skips. rewrite H1, H2, !orb_false_r.
  destruct (String.prefix "multipart/" (content_type p)).
  - apply IH. intros q Hq. apply Hw. by right.
  - assert (IH' := IH (count + 1) (fun q Hq => Hw q (list_elem_of_further _ _ _ Hq))).
    unfold att_matches. simpl.
    destruct (tree_walk (count + 1) rest). simpl in *. by rewrite IH'.
Qed.

(** ** C3: an exception of the decrypt call *)

Lemma keeps_set_data d : keeps (set_data d).
Proof. intros p. split; [done|]. intros _. by eexists. Qed.

Lemma keeps_set_crypto c : keeps (set_crypto c).
Proof. by intros p. Qed.

Lemma alter_keeps_types f j (parts : list part) :
  keeps f -> type <$> alter f j parts = type <$> parts.
Proof.
  intros Hf. revert j. induction parts as [|p parts IH]; intros [|j]; simpl;
    try done.
  - f_equal. apply Hf.
  - f_equal. apply IH.
Qed.

Lemma alter_keeps_data f j (parts : list part) :
  keeps f -> Forall has_data parts -> Forall has_data (alter f j parts).
Proof.
  intros Hf H. revert j. induction H as [|p parts Hp H IH]; intros [|j];
    simpl; constructor; try done.
  - by apply Hf.
  - apply IH.
Qed.

Section EvaluatePgpFacts.
Variable encode : string -> text -> result text.
Variable decode : string -> text -> result text.
Variable gpg_verify : text -> result Info.
Variable gpg_decrypt : text -> result (Info * Info * text).
Variable bubble_up : Info -> Info -> Info.
Variable mix_bubbles : Info -> Info.
Variable e : exn.
Hypothesis decrypt_raises : forall d, gpg_decrypt d = Raise e.

Lemma good_alter tys f j parts :
  keeps f -> good tys parts -> good tys (alter f j parts).
Proof.
  intros Hf [Ht Hd]. split.
  - by rewrite alter_keeps_types.
  - by apply alter_keeps_data.
Qed.

Lemma verify_run_good tys parts pgpdata :
  good tys parts -> good tys (verify_run encode gpg_verify parts pgpdata).1.
Proof.
  intros Hg. unfold verify_run.
  repeat match goal with
         | |- context [match ?x with _ => _ end] => destruct x
         end; simpl;
    repeat (apply good_alter;
            [apply keeps_set_data || apply keeps_set_crypto|]); done.
Qed.

Lemma comprehension_data parts (pgpdata : list nat) :
  Forall has_data parts ->
  Forall (fun j => j < length parts) pgpdata ->
  exists ds, comprehension (fun j => get_data (parts !!! j)) pgpdata = Ok ds.
Proof.
  intros Hd Hj. induction Hj as [|j pgpdata Hlt Hj [ds IH]]; simpl.
  - by eexists.
  - destruct (lookup_lt_is_Some_2 parts j Hlt) as [p Hp].
    rewrite (list_lookup_total_correct _ _ _ Hp).
    rewrite Forall_forall in Hd.
    destruct (Hd p) as [d Hdp]; [by eapply list_elem_of_lookup_2|].
    unfold get_data at 1. rewrite Hdp. simpl. rewrite IH. simpl.
    by eexists.
Qed.

Lemma ev_part_step tys check_sigs st i :
  ev_inv tys st -> i < length tys ->
  if bool_decide (tys !! i = Some "pgpend")
  then ev_part encode decode gpg_verify gpg_decrypt bubble_up
               check_sigs true st i = Raise e
  else exists st',
      ev_part encode decode gpg_verify gpg_decrypt bubble_up
              check_sigs true st i = Ok st'
      /\ ev_inv tys st'.
Proof.
  intros [Hg Hj] Hi. unfold ev_part.
  set (parts0 := alter _ i (ev_parts st)).
  assert (Hg0 : good tys parts0).
  { apply good_alter; [|done]. intros p. by destruct (crypto p). }
  assert (Hlen : forall parts, good tys parts -> length parts = length tys).
  { intros parts [<- _]. by rewrite length_fmap. }
  assert (Hty : tys !! i = Some (type (parts0 !!! i))).
  { destruct Hg0 as [<- _]. rewrite list_lookup_fmap.
    destruct (lookup_lt_is_Some_2 parts0 i) as [p Hp].
    { rewrite (Hlen parts0); [done|]. by apply good_alter; [intros p; by destruct (crypto p)|]. }
    by rewrite (list_lookup_total_correct _ _ _ Hp), Hp. }
  set (ty := type (parts0 !!! i)) in *.
  assert (Hsig : exists parts pgpdata si,
             (if check_sigs then
                if String.eqb ty "pgpbeginsigned" then (parts0, [i], None)
                else if String.eqb ty "pgpsignedtext"
                then (parts0, ev_pgpdata st ++ [i], None)
                else if String.eqb ty "pgpsignature" then
                  let '(parts, si) :=
                    verify_run encode gpg_verify parts0 (ev_pgpdata st ++ [i]) in
                  (parts, ev_pgpdata st ++ [i], si)
                else (parts0, ev_pgpdata st, None)
              else (parts0, ev_pgpdata st, None)) = (parts, pgpdata, si)
             /\ good tys parts
             /\ Forall (fun j => j < length tys) pgpdata).
  { assert (Hji : Forall (fun j => j < length tys) (ev_pgpdata st ++ [i])).
    { apply Forall_app. split; [done|]. by constructor. }
    destruct check_sigs; [|by eexists _, _, _].
    destruct (String.eqb ty "pgpbeginsigned").
    { eexists _, _, _. split; [done|]. split; [done|]. by constructor. }
    destruct (String.eqb ty "pgpsignedtext"); [by eexists _, _, _|].
    destruct (String.eqb ty "pgpsignature"); [|by eexists _, _, _].
    pose proof (verify_run_good tys parts0 (ev_pgpdata st ++ [i]) Hg0) as Hv.
    destruct (verify_run _ _ _ _) as [parts si]. by eexists _, _, _. }
  destruct Hsig as (parts & pgpdata & si & -> & Hg1 & Hj1).
  case_bool_decide as Hend.
  - rewrite Hty in Hend. injection Hend as Hend. rewrite Hend. simpl.
    unfold decrypt_run.
    destruct (comprehension_data parts (pgpdata ++ [i])) as [ds Hds].
    + apply Hg1.
    + rewrite (Hlen parts Hg1). apply Forall_app. split; [done|].
      by constructor.
    + rewrite Hds. simpl. by rewrite decrypt_raises.
  - assert (Hne : String.eqb ty "pgpend" = false).
    { apply String.eqb_neq. intros Heq. apply Hend. by rewrite Hty, Heq. }
    rewrite Hne.
    assert (Hdec : exists pgpdata',
               (if bool_decide (ty ∈ ["pgpbegin"; "pgptext"])
                then Ok (parts, pgpdata ++ [i], si, @None Info)
                else Ok (parts, pgpdata, si, None))
               = Ok (parts, pgpdata', si, None)
               /\ Forall (fun j => j < length tys) pgpdata').
    { destruct (bool_decide _); eexists; (split; [done|]); [|done].
      apply Forall_app. split; [done|]. by constructor. }
    destruct Hdec as (pgpdata' & -> & Hj2). simpl.
    destruct si as [s|]; simpl.
    + destruct (ev_crypto st) as [[ts te]|]; simpl.
      * eexists. split; [done|]. by split.
      * eexists. split; [done|]. by split.
    + destruct (ev_crypto st) as [[ts te]|]; simpl.
      * eexists. split; [done|]. by split.
      * eexists. split; [done|]. by split.
Qed.

Lemma ev_loop_raises tys check_sigs (n : nat) : forall st lo,
  ev_inv tys st ->
  lo + n = length tys ->
  (exists i, lo <= i /\ tys !! i = Some "pgpend") ->
  foldM (ev_part encode decode gpg_verify gpg_decrypt bubble_up
                 check_sigs true) st (seq lo n) = Raise e.
Proof.
  induction n as [|n IH]; intros st lo Hinv Hlen (i & Hi & Hend).
  { apply lookup_lt_Some in Hend. lia. }
  simpl.
  pose proof (ev_part_step tys check_sigs st lo Hinv ltac:(lia)) as Hstep.
  case_bool_decide as Hlo.
  - by rewrite Hstep.
  - destruct Hstep as (st' & -> & Hinv'). simpl.
    apply IH; [done|lia|].
    exists i. split; [|done].
    destruct (decide (i = lo)) as [->|]; [done|lia].
Qed.

(** C3 fails on the code.  No [try] encloses the decryption run: when
    the text parts, each with its ['data'], contain a block of type
    ['pgpend'] and the decrypt call raises, [evaluate_pgp] with
    decryption enabled raises that exception and returns no tree,
    whatever the other collaborators do and with or without signature
    checking. *)
Theorem decrypt_exception_propagates (parts : list part)
    (tc : option (Info * Info)) (check_sigs : bool) :
  Forall has_data parts ->
  Exists (fun p => type p = "pgpend") parts ->
  evaluate_pgp encode decode gpg_verify gpg_decrypt bubble_up mix_bubbles
               (Tree (Some parts) tc) check_sigs true
  = Raise e.
Proof.
  intros Hd Hex. unfold evaluate_pgp. simpl.
  rewrite (ev_loop_raises (type <$> parts) check_sigs (length parts)).
  - done.
  - split; [by split|]. simpl. constructor.
  - by rewrite length_fmap.
  - apply Exists_exists in Hex as (p & Hp & Hty).
    apply list_elem_of_lookup in Hp as [i Hi].
    exists i. split; [lia|]. by rewrite list_lookup_fmap, Hi, <- Hty.
Qed.

End EvaluatePgpFacts.

Lemma decrypt_exception_propagates_witness :
  evaluate_pgp (fun _ d => Ok d) (fun _ d => Ok d)
               (fun _ => Raise (GnuPGError "no public key"))
               (fun _ => Raise (GnuPGError "decryption failed"))
               (fun _ p => p) id
               (Tree (Some armored_blocks) (Some (undisturbed, undisturbed)))
               true true
  = Raise (GnuPGError "decryption failed").
Proof.
  apply decrypt_exception_propagates.
  - done.
  - unfold armored_blocks. repeat constructor; by eexists.
  - unfold armored_blocks. do 2 apply Exists_cons_tl. by apply Exists_cons_hd.
Defined.

(** ** C5: the tokenizer of the third pass *)

(** C5 fails on the code.  [_parse] calls [_tokenize] with the pass
    names ['2'] and ['3'], which are strings, and [_tokenize] strips
    [<], [>] and the double quote under [munge == 3] only: a string is
    not the number 3, so the third pass tokenizes exactly the string
    that the second pass tokenizes.  With the number 3 the characters
    would be stripped. *)
Theorem tokenize_pass3_strips_nothing (s : text) :
  _tokenize s (PyStr "3") = _tokenize s (PyStr "2")
  /\ _tokenize (u "x<y@z.w>") (PyStr "3") = [u "x"; u " "; u "<y@z.w>"]
  /\ _tokenize (u "x<y@z.w>") (PyInt 3) = [u "x"; u " "; u "y@z.w"].
Proof. split; [reflexivity|]. split; vm_compute; reflexivity. Qed.

(** ** C4: an address that no pass finds *)

(** C4 fails on the code.  With [strict] off [_parse] never raises a
    [ValueError], whether [_raise] is requested or not: the first pass
    swallows it, and the sloppy passes re-raise under [_pass == 3] only,
    which never holds for the pass names ['2'] and ['3'].  For
    ["a@b.c, foo"] and for ["foo"] with [_raise] requested the result
    is the empty list; without [_raise] the group [foo] is left out and
    the address of the first group is returned. *)
Theorem parse_never_raises_ValueError
    (decode : string -> text -> result text)
    (decode_word : text -> text -> text -> result text)
    (charset_order : list string) (data0 : text) (_raise : bool) :
  match _parse decode decode_word charset_order data0 false _raise with
  | Ok _ => True
  | Raise e => is_ValueError e = false
  end
  /\ _parse latin1 literal_word DEFAULT_CHARSET_ORDER (u "a@b.c, foo")
            false true = Ok []
  /\ _parse latin1 literal_word DEFAULT_CHARSET_ORDER (u "foo") false true
     = Ok []
  /\ _parse latin1 literal_word DEFAULT_CHARSET_ORDER (u "a@b.c, foo")
            false false = Ok [MkAddressInfo (u "a@b.c") [] None].
Proof.
  split; [|repeat split; vm_compute; reflexivity].
  unfold _parse. simpl.
  destruct (parse_pass _ _ _ data0 true PyFalse) as [l|e]; [done|].
  destruct (is_ValueError e) eqn:E; [|done].
  simpl.
  destruct (parse_pass _ _ _ data0 _raise (PyStr "2")) as [l2|e2]; [done|].
  destruct (is_ValueError e2) eqn:E2; [|done].
  destruct (parse_pass _ _ _ data0 _raise (PyStr "3")) as [l3|e3]; [done|].
  by destruct (is_ValueError e3) eqn:E3.
Qed.

(** * Further properties *)

(** ** Block assembly: the runs are maximal *)




(** ** Block assembly: the signature is the end *)

Lemma signature_type_keeps_state k line b :
  (parse_line_type k line b).2 = "signature" ->
  (parse_line_type k line b).1 = "signature".
Proof. classify_cases; simpl; done. Qed.

Lemma signature_state_type k line :
  parse_line_type k line "signature" = ("signature", "signature").
Proof. reflexivity. Qed.

Lemma assemble_signature_last k lines : forall b (gs : list group),
  signature_last (fst <$> gs) ->
  (last (fst <$> gs) = Some "signature" -> b = "signature") ->
  signature_last (fst <$> assemble k b gs lines).
Proof.
  induction lines as [|line rest IH]; intros b gs Hs Hb; [done|].
  rewrite assemble_cons.
  pose proof (signature_type_keeps_state k line b) as Hkeep.
  apply IH; rewrite add_line_types.
  - destruct (last (fst <$> gs)) as [t|] eqn:El.
    + case_bool_decide as Ht; [done|].
      intros i Hi. rewrite length_app. simpl.
      destruct (decide (i < length (fst <$> gs))) as [Hlt|Hge].
      * rewrite lookup_app_l in Hi by done.
        pose proof (Hs i Hi) as Hlast.
        assert (t = "signature") as ->.
        { rewrite last_lookup in El.
          replace (pred (length (fst <$> gs))) with i in El by lia.
          congruence. }
        rewrite (Hb eq_refl), signature_state_type in Ht. by destruct Ht.
      * apply lookup_lt_Some in Hi as Hi'. rewrite length_app in Hi'.
        simpl in Hi'. lia.
    + intros [|i] Hi; [done|]. by destruct i.
  - destruct (last (fst <$> gs)) as [t|] eqn:El.
    + case_bool_decide as Ht.
      * rewrite El. intros [= ->]. apply Hkeep. by rewrite Ht.
      * rewrite last_snoc. intros [= Hlt]. by apply Hkeep.
    + simpl. intros [= Hlt]. by apply Hkeep.
Qed.

Lemma signature_last_count (l : list string) :
  signature_last l ->
  length (filter (fun t : string => t = "signature") l) <= 1.
Proof.
  intros Hs. destruct l as [|a l _] using rev_ind; [simpl; lia|].
  assert (Hnone : filter (fun t : string => t = "signature") l = []).
  { assert (Hall : forall i, l !! i <> Some "signature").
    { intros i Hi. pose proof (lookup_lt_Some _ _ _ Hi) as Hlt.
      specialize (Hs i). rewrite lookup_app_l, length_app in Hs by done.
      simpl in Hs. specialize (Hs Hi). lia. }
    clear Hs. induction l as [|x l IH]; [done|].
    rewrite filter_cons_False.
    - apply IH. intros i. apply (Hall (S i)).
    - intros ->. by apply (Hall 0). }
  rewrite filter_app, length_app, Hnone. simpl.
  destruct (decide (a = "signature")).
  - by rewrite filter_cons_True.
  - rewrite filter_cons_False by done. simpl. lia.
Qed.

(** Once a signature block has begun nothing ends it: a block of type
    ['signature'] is the last block of [parse_text_part], so there is at
    most one. *)
Theorem signature_block_is_last k charset0 psi pei (data0 : text) :
  exists blocks,
    parse_text_part k charset0 psi pei data0 = Ok blocks
    /\ (forall i p, blocks !! i = Some p -> type p = "signature" ->
          S i = length blocks)
    /\ signature_blocks blocks <= 1.
Proof.
  eexists. split; [apply parse_text_part_assemble|].
  set (gs := assemble k "body" [] (Py.splitlines k data0)).
  assert (Hs : signature_last (fst <$> gs)).
  { apply (assemble_signature_last k _ "body" []); [by intros i|done]. }
  clearbody gs. split.
  - intros i p Hi Hp.
    assert (Hl : S i = length (fst <$> gs)).
    { apply Hs. apply list_lookup_fmap_Some_1 in Hi as (g & -> & Hg).
      rewrite <- Hp. by apply (list_lookup_fmap_Some_2 fst). }
    rewrite (length_fmap (block_of charset0 psi pei) gs).
    rewrite <- (length_fmap (fst : group -> string) gs). exact Hl.
  - unfold signature_blocks. rewrite <- list_fmap_compose.
    by apply signature_last_count.
Qed.

(** ** Block assembly: an inline encrypted message *)

Section ArmorFacts.
Variable k : strtype.

Lemma add_line_same t line (gs : list group) cl :
  add_line k t line (gs ++ [(t, cl)]) = gs ++ [(t, cl ++ [line])].
Proof.
  unfold add_line. rewrite last_snoc, removelast_last.
  by rewrite bool_decide_eq_true_2.
Qed.

Lemma add_line_other ltype t line (gs : list group) cl :
  ltype <> t -> ltype <> "quote" ->
  add_line k ltype line (gs ++ [(t, cl)]) = gs ++ [(t, cl); (ltype, [line])].
Proof.
  intros Ht Hq. unfold add_line. rewrite last_snoc, removelast_last.
  rewrite bool_decide_eq_false_2 by done.
  unfold moved. rewrite (bool_decide_eq_false_2 (ltype = "quote")) by done.
  simpl. by rewrite upto_last_0, last_n_0.
Qed.

(** A run of lines that keep the state [b] and have the type [t]. *)
Lemma assemble_run b t lines : forall (gs : list group) cl rest,
  Forall (fun l => parse_line_type k l b = (b, t)) lines ->
  assemble k b (gs ++ [(t, cl)]) (lines ++ rest)
  = assemble k b (gs ++ [(t, cl ++ lines)]) rest.
Proof.
  induction lines as [|line lines IH]; intros gs cl rest Hl.
  - by rewrite app_nil_r.
  - apply Forall_cons in Hl as [Hline Hl].
    rewrite <- app_comm_cons, assemble_cons, Hline. simpl.
    rewrite add_line_same, IH by done.
    by rewrite <- app_assoc.
Qed.

Lemma begin_line_type line :
  Py.rstrip k line = GnuPG.ARMOR_BEGIN_ENCRYPTED ->
  parse_line_type k line "body" = ("pgpbegin", "pgpbegin").
Proof.
  intros H. unfold parse_line_type.
  assert (Hm : bool_decide (line ∈ signature_markers) = false).
  { apply bool_decide_eq_false_2. unfold signature_markers. intros Hin.
    repeat (apply elem_of_cons in Hin as [->|Hin];
            [by destruct k|]).
    by apply elem_of_nil in Hin. }
  rewrite Hm, andb_false_r, H. reflexivity.
Qed.

Lemma header_line_type line :
  armor_header_line k line = true ->
  parse_line_type k line "pgpbegin" = ("pgpbegin", "pgpbegin").
Proof.
  unfold armor_header_line, parse_line_type.
  intros [H1 H2]%andb_prop. apply negb_true_iff in H1.
  simpl. rewrite H1, H2.
  by destruct (text_eqb (Py.rstrip k line) GnuPG.ARMOR_BEGIN_ENCRYPTED).
Qed.

Lemma first_data_line_type line :
  armor_first_data_line k line = true ->
  parse_line_type k line "pgpbegin" = ("pgptext", "pgptext").
Proof.
  unfold armor_first_data_line, armor_data_line, parse_line_type.
  intros [[[[H1 H2]%andb_prop _]%andb_prop H3]%andb_prop H4]%andb_prop.
  apply negb_true_iff in H1, H2, H3, H4.
  simpl. by rewrite H1, H2, H3, H4.
Qed.

Lemma data_line_type line :
  armor_data_line k line = true ->
  parse_line_type k line "pgptext" = ("pgptext", "pgptext").
Proof.
  unfold armor_data_line, parse_line_type.
  intros [[H1 H2]%andb_prop H3]%andb_prop.
  apply negb_true_iff in H1, H2, H3.
  simpl. by rewrite H1, H2, H3.
Qed.

Lemma end_line_type line :
  Py.rstrip k line = GnuPG.ARMOR_END_ENCRYPTED ->
  parse_line_type k line "pgptext" = ("pgpend", "pgpend").
Proof. intros H. unfold parse_line_type. simpl. by rewrite H. Qed.

Lemma assemble_armor begin hs first ds endl :
  Py.rstrip k begin = GnuPG.ARMOR_BEGIN_ENCRYPTED ->
  Forall (fun l => armor_header_line k l = true) hs ->
  armor_first_data_line k first = true ->
  Forall (fun l => armor_data_line k l = true) ds ->
  Py.rstrip k endl = GnuPG.ARMOR_END_ENCRYPTED ->
  assemble k "body" [] (begin :: hs ++ first :: ds ++ [endl])
  = [("pgpbegin", begin :: hs); ("pgptext", first :: ds);
     ("pgpend", [endl])].
Proof.
  intros Hb Hh Hf Hd He.
  rewrite assemble_cons, (begin_line_type _ Hb).
  change (add_line k _ begin [])
    with ([] ++ [("pgpbegin", [begin])] : list group).
  rewrite (assemble_run "pgpbegin" "pgpbegin").
  2:{ eapply Forall_impl; [exact Hh|]. apply header_line_type. }
  rewrite assemble_cons, (first_data_line_type _ Hf). simpl fst. simpl snd.
  rewrite add_line_other by done.
  change ([] ++ [("pgpbegin", [begin] ++ hs); ("pgptext", [first])])
    with ([("pgpbegin", begin :: hs)] ++ [("pgptext", [first])] : list group).
  rewrite (assemble_run "pgptext" "pgptext").
  2:{ eapply Forall_impl; [exact Hd|]. apply data_line_type. }
  rewrite assemble_cons, (end_line_type _ He). simpl fst. simpl snd.
  by rewrite add_line_other.
Qed.

End ArmorFacts.

(** A text whose lines are the armor of an encrypted message (the BEGIN
    line, header lines, data lines and the END line) and nothing else
    gives exactly three blocks, of the types ['pgpbegin'], ['pgptext']
    and ['pgpend'], holding the BEGIN line with the headers, the data
    lines, and the END line: the run that the decryption of
    [evaluate_pgp] looks for. *)
Theorem armored_message_blocks k charset0 psi pei (data0 : text)
    (begin : text) (hs : list text) (first : text) (ds : list text)
    (endl : text) :
  Py.splitlines k data0 = begin :: hs ++ first :: ds ++ [endl] ->
  Py.rstrip k begin = GnuPG.ARMOR_BEGIN_ENCRYPTED ->
  Forall (fun l => armor_header_line k l = true) hs ->
  armor_first_data_line k first = true ->
  Forall (fun l => armor_data_line k l = true) ds ->
  Py.rstrip k endl = GnuPG.ARMOR_END_ENCRYPTED ->
  parse_text_part k charset0 psi pei data0
  = Ok [new_block charset0 psi pei "pgpbegin" (begin :: hs);
        new_block charset0 psi pei "pgptext" (first :: ds);
        new_block charset0 psi pei "pgpend" [endl]].
Proof.
  intros Hl Hb Hh Hf Hd He.
  rewrite parse_text_part_assemble, Hl.
  by rewrite (assemble_armor k begin hs first ds endl).
Qed.

Lemma armored_message_blocks_witness :
  parse_text_part Unicode "utf-8" 0 1 armored_text
  = Ok [new_block "utf-8" 0 1 "pgpbegin"
          [u "-----BEGIN PGP MESSAGE-----" ++ [LF]; [LF]];
        new_block "utf-8" 0 1 "pgptext" [u "hQEMA5mrNfcwNe" ++ [LF]];
        new_block "utf-8" 0 1 "pgpend" [u "-----END PGP MESSAGE-----" ++ [LF]]].
Proof.
  apply (armored_message_blocks Unicode "utf-8" 0 1 armored_text
           (u "-----BEGIN PGP MESSAGE-----" ++ [LF]) [[LF]]
           (u "hQEMA5mrNfcwNe" ++ [LF]) []
           (u "-----END PGP MESSAGE-----" ++ [LF])).
  - vm_compute. reflexivity.
  - vm_compute. reflexivity.
  - repeat constructor.
  - vm_compute. reflexivity.
  - constructor.
  - vm_compute. reflexivity.
Defined.

(** ** The crypto overlay: what the loop does to a tree *)

Lemma alter_at_fixpoint {A} (f : A -> A) (i : nat) (l : list A) :
  (forall x, l !! i = Some x -> f x = x) -> alter f i l = l.
Proof.
  revert i. induction l as [|a l IH]; intros [|i] H; simpl; try done.
  - f_equal. by apply H.
  - f_equal. by apply IH.
Qed.

Section OverlayFacts.
Variable encode : string -> text -> result text.
Variable decode : string -> text -> result text.
Variable gpg_verify : text -> result Info.
Variable gpg_decrypt : text -> result (Info * Info * text).
Variable bubble_up : Info -> Info -> Info.
Variable mix_bubbles : Info -> Info.

Local Abbreviation ev_part' :=
  (ev_part encode decode gpg_verify gpg_decrypt bubble_up).
Local Abbreviation evaluate_pgp' :=
  (evaluate_pgp encode decode gpg_verify gpg_decrypt bubble_up mix_bubbles).

Lemma ensure_crypto_types i (parts : list part) :
  type <$> alter (fun p => match crypto p with
                           | None => set_crypto (Some (Crypto None None)) p
                           | Some _ => p
                           end) i parts
  = type <$> parts.
Proof. apply alter_keeps_types. intros p. by destruct (crypto p). Qed.

(** Without a part that ends a run the loop finds no status, and the
    crypto entry of the tree stays as it is. *)
Lemma ev_part_quiet tys check_sigs decrypt st i :
  type <$> ev_parts st = tys ->
  i < length tys ->
  tys !! i <> Some "pgpsignature" ->
  tys !! i <> Some "pgpend" ->
  exists st',
    ev_part' check_sigs decrypt st i = Ok st'
    /\ type <$> ev_parts st' = tys
    /\ ev_crypto st' = ev_crypto st.
Proof.
  intros Ht Hi Hs He. unfold ev_part.
  set (parts0 := alter _ i (ev_parts st)).
  assert (Ht0 : type <$> parts0 = tys).
  { unfold parts0. by rewrite ensure_crypto_types. }
  assert (Hty : tys !! i = Some (type (parts0 !!! i))).
  { rewrite <- Ht0, list_lookup_fmap.
    destruct (lookup_lt_is_Some_2 parts0 i) as [p Hp].
    { by rewrite <- (length_fmap type), Ht0. }
    by rewrite (list_lookup_total_correct _ _ _ Hp), Hp. }
  set (ty := type (parts0 !!! i)) in *.
  assert (Hns : String.eqb ty "pgpsignature" = false).
  { apply String.eqb_neq. intros Heq. apply Hs. by rewrite Hty, Heq. }
  assert (Hne : String.eqb ty "pgpend" = false).
  { apply String.eqb_neq. intros Heq. apply He. by rewrite Hty, Heq. }
  rewrite Hns, Hne.
  destruct check_sigs, decrypt, (String.eqb ty "pgpbeginsigned"),
    (String.eqb ty "pgpsignedtext"),
    (bool_decide (ty ∈ ["pgpbegin"; "pgptext"])), (ev_crypto st) as [[ts te]|];
    simpl; by eexists.
Qed.

Lemma ev_loop_quiet tys check_sigs decrypt (n : nat) : forall st lo,
  type <$> ev_parts st = tys ->
  lo + n = length tys ->
  "pgpsignature" ∉ tys -> "pgpend" ∉ tys ->
  exists st',
    foldM (ev_part' check_sigs decrypt) st (seq lo n) = Ok st'
    /\ ev_crypto st' = ev_crypto st.
Proof.
  induction n as [|n IH]; intros st lo Ht Hlen Hs He; [by eexists|].
  destruct (ev_part_quiet tys check_sigs decrypt st lo Ht)
    as (st1 & E1 & Ht1 & Hc1); [lia| | |].
  - intros H. apply Hs. by eapply list_elem_of_lookup_2.
  - intros H. apply He. by eapply list_elem_of_lookup_2.
  - simpl. rewrite E1. simpl.
    destruct (IH st1 (S lo)) as (st' & E' & Hc'); [done|lia|done|done|].
    exists st'. split; [done|]. by rewrite Hc', Hc1.
Qed.

(** A tree without the key ['crypto'] and without a part that ends a
    PGP run makes [evaluate_pgp] raise [KeyError]: nothing creates the
    entry that the last statements read. *)
Theorem evaluate_pgp_needs_crypto (parts : list part)
    (check_sigs decrypt : bool) :
  Forall (fun p => type p <> "pgpsignature" /\ type p <> "pgpend") parts ->
  evaluate_pgp' (Tree (Some parts) None) check_sigs decrypt = Raise KeyError.
Proof.
  intros Hp. unfold evaluate_pgp. simpl.
  destruct (ev_loop_quiet (type <$> parts) check_sigs decrypt (length parts)
              (EvState parts [] None) 0) as (st' & -> & Hc); try done.
  - by rewrite length_fmap.
  - intros (p & Heq & Hin)%list_elem_of_fmap.
    rewrite Forall_forall in Hp. destruct (Hp p Hin) as [H _]. by apply H.
  - intros (p & Heq & Hin)%list_elem_of_fmap.
    rewrite Forall_forall in Hp. destruct (Hp p Hin) as [_ H]. by apply H.
  - simpl. simpl in Hc. by rewrite Hc.
Qed.

End OverlayFacts.

Lemma evaluate_pgp_needs_crypto_witness :
  evaluate_pgp latin1 latin1 (fun _ => Ok undisturbed)
               (fun d => Ok (undisturbed, undisturbed, d)) (fun _ p => p) id
               (Tree (Some [new_block "utf-8" 0 1 "text" [u "Hello" ++ [LF]]])
                     None)
               true true
  = Raise KeyError.
Proof.
  apply evaluate_pgp_needs_crypto.
  repeat constructor; discriminate.
Defined.

Section OverlayRuns.
Variable encode : string -> text -> result text.
Variable decode : string -> text -> result text.
Variable gpg_verify : text -> result Info.
Variable gpg_decrypt : text -> result (Info * Info * text).
Variable bubble_up : Info -> Info -> Info.
Variable mix_bubbles : Info -> Info.

Local Abbreviation ev_part' :=
  (ev_part encode decode gpg_verify gpg_decrypt bubble_up).
Local Abbreviation evaluate_pgp' :=
  (evaluate_pgp encode decode gpg_verify gpg_decrypt bubble_up mix_bubbles).

Lemma verify_run_raising parts pgpdata :
  (forall m, exists e, gpg_verify m = Raise e) ->
  verify_run encode gpg_verify parts pgpdata = (parts, None).
Proof.
  intros Hv. unfold verify_run.
  destruct (comprehension _ pgpdata) as [ms|]; [|done].
  by destruct (Hv (Py.join ms)) as [e ->].
Qed.

Lemma ev_part_verify_fails parts pgpdata tc i :
  (forall m, exists e, gpg_verify m = Raise e) ->
  Forall annotated parts ->
  exists pgpdata',
    ev_part' true false (EvState parts pgpdata (Some tc)) i
    = Ok (EvState parts pgpdata' (Some tc)).
Proof.
  intros Hv Ha. unfold ev_part. simpl.
  rewrite alter_at_fixpoint.
  2:{ intros p Hp. rewrite Forall_forall in Ha.
      assert (Hin : p ∈ parts) by (by eapply list_elem_of_lookup_2).
      specialize (Ha p Hin). unfold annotated in Ha.
      by destruct (crypto p). }
  rewrite verify_run_raising by done.
  set (ty := type (parts !!! i)).
  destruct tc as [ts te].
  destruct (String.eqb ty "pgpbeginsigned"), (String.eqb ty "pgpsignedtext"),
    (String.eqb ty "pgpsignature"); simpl; by eexists.
Qed.

Lemma ev_loop_verify_fails parts tc (l : list nat) : forall pgpdata,
  (forall m, exists e, gpg_verify m = Raise e) ->
  Forall annotated parts ->
  exists pgpdata',
    foldM (ev_part' true false) (EvState parts pgpdata (Some tc)) l
    = Ok (EvState parts pgpdata' (Some tc)).
Proof.
  induction l as [|i l IH]; intros pgpdata Hv Ha; [by eexists|].
  destruct (ev_part_verify_fails parts pgpdata tc i Hv Ha) as [pd1 E1].
  simpl. rewrite E1. simpl. by apply IH.
Qed.

(** When the verify call raises, the signature check of [evaluate_pgp]
    returns the tree with every part as it was (type, text, charset and
    crypto entry) and with the crypto entry of the tree bubbled from no
    new status: the [try] of the signature run keeps the failure
    inside. *)
Theorem verify_exception_is_contained (parts : list part) (ts te : Info) :
  (forall m, exists e, gpg_verify m = Raise e) ->
  Forall annotated parts ->
  evaluate_pgp' (Tree (Some parts) (Some (ts, te))) true false
  = Ok (Tree (Some parts) (Some (mix_bubbles ts, mix_bubbles te))).
Proof.
  intros Hv Ha. unfold evaluate_pgp. simpl.
  destruct (ev_loop_verify_fails parts (ts, te) (seq 0 (length parts)) []
              Hv Ha) as [pd ->].
  simpl. do 3 f_equal.
  induction Ha as [|p parts Hp Ha IH]; [done|].
  simpl. f_equal; [|exact IH].
  unfold annotated in Hp.
  by destruct (crypto p) as [[[s|] [e|]]|].
Qed.

End OverlayRuns.

Lemma verify_exception_is_contained_witness :
  evaluate_pgp latin1 latin1 (fun _ => Raise (GnuPGError "no public key"))
               (fun d => Ok (undisturbed, undisturbed, d)) (fun _ p => p) id
               (Tree (Some (signed_blocks "utf-8" 0 1
                              signed_head signed_body signed_tail))
                     (Some (undisturbed, undisturbed)))
               true false
  = Ok (Tree (Some (signed_blocks "utf-8" 0 1
                      signed_head signed_body signed_tail))
             (Some (undisturbed, undisturbed))).
Proof.
  apply (verify_exception_is_contained latin1 latin1
           (fun _ => Raise (GnuPGError "no public key"))
           (fun d => Ok (undisturbed, undisturbed, d)) (fun _ p => p) id).
  - intros m. by eexists.
  - repeat constructor.
Defined.

Section OverlaySuccess.
Variable encode : string -> text -> result text.
Variable decode : string -> text -> result text.
Variable gpg_verify : text -> result Info.
Variable gpg_decrypt : text -> result (Info * Info * text).
Variable bubble_up : Info -> Info -> Info.
Variable mix_bubbles : Info -> Info.
Variable charset0 : string.
Variables psi pei : nat.

Local Abbreviation evaluate_pgp' :=
  (evaluate_pgp encode decode gpg_verify gpg_decrypt bubble_up mix_bubbles).



End OverlaySuccess.



(** ** The parse cache: what a caller can rely on *)

Section CacheUse.
Context {Id Message Fd : Type} `{EqDecision Id}.
Variable GnuPG_present : bool.
Variable parse_fd : Fd -> option Message.
Variable deepcopy : Message -> Message.
Variable UnwrapMimeCrypto : Message -> Message.

Local Abbreviation ParseMessage' :=
  (ParseMessage GnuPG_present parse_fd deepcopy UnwrapMimeCrypto).

Lemma cache_lookup_insert (c : @cache Id Message) i pm m :
  cache_lookup (cache_insert c i pm m) i pm = Some (Some m).
Proof. simpl. by rewrite !bool_decide_eq_true_2. Qed.

Lemma ParseMessage_plain_again (c c' : @cache Id Message) fd fd' i upd m :
  ParseMessage_plain parse_fd c fd (Some i) upd = (Some m, c') ->
  ParseMessage_plain parse_fd c' fd' (Some i) false = (Some m, c').
Proof.
  unfold ParseMessage_plain.
  destruct (if upd then None else cache_lookup c i false) as [hit|] eqn:Eh.
  - intros [= -> <-]. destruct upd; [done|]. by rewrite Eh.
  - destruct (parse_fd fd) as [m0|]; [|done].
    intros [= <- <-]. by rewrite cache_lookup_insert.
Qed.

(** A message that [ParseMessage] returned under a cache id is returned
    again by the next call with that id and mode, without reading the
    file, and that call leaves the cache as it is. *)
Theorem ParseMessage_is_cached (c c' : @cache Id Message) (fd fd' : Fd)
    (i : Id) (upd pm : bool) (m : Message) :
  ParseMessage' c fd (Some i) upd pm = (Some m, c') ->
  ParseMessage' c' fd' (Some i) false pm = (Some m, c').
Proof.
  unfold ParseMessage.
  destruct (pm && GnuPG_present); [|apply ParseMessage_plain_again].
  destruct (if upd then None else cache_lookup c i true) as [hit|] eqn:Eh.
  - intros [= -> <-]. destruct upd; [done|]. by rewrite Eh.
  - destruct (ParseMessage_plain parse_fd c fd (Some i) false) as [[m0|] c1];
      [|done].
    intros [= <- <-]. by rewrite cache_lookup_insert.
Qed.

(** Parsing with PGP/MIME under a cache id keeps the message as it was
    read: when the id is not cached, the call caches the parsed message
    for the plain mode and its unwrapped copy for the PGP/MIME mode. *)
Theorem ParseMessage_keeps_plain (c : @cache Id Message) (fd : Fd) (i : Id)
    (upd : bool) (m0 : Message) :
  GnuPG_present = true ->
  parse_fd fd = Some m0 ->
  cache_lookup c i false = None ->
  upd = true \/ cache_lookup c i true = None ->
  let '(r, c') := ParseMessage' c fd (Some i) upd true in
  r = Some (UnwrapMimeCrypto (deepcopy m0))
  /\ cache_lookup c' i false = Some (Some m0)
  /\ cache_lookup c' i true = Some (Some (UnwrapMimeCrypto (deepcopy m0)))
  /\ length c' <= 25.
Proof.
  intros -> Hp Hplain Hpgp. unfold ParseMessage, ParseMessage_plain. simpl.
  assert (Hh : (if upd then None else cache_lookup c i true) = None).
  { destruct Hpgp as [->|Hl]; [done|]. by destruct upd. }
  rewrite Hh, Hplain, Hp.
  split; [done|]. split; [|split].
  - simpl. rewrite !(bool_decide_eq_true_2 (Some i = Some i)) by done.
    reflexivity.
  - apply cache_lookup_insert.
  - cbn [cache_insert length]. rewrite length_take. lia.
Qed.

(** Without a cache id [ParseMessage] neither reads nor writes the
    cache. *)
Theorem ParseMessage_uncached (c c0 : @cache Id Message) (fd : Fd)
    (upd pm : bool) :
  (ParseMessage' c fd None upd pm).2 = c
  /\ (ParseMessage' c fd None upd pm).1 = (ParseMessage' c0 fd None upd pm).1.
Proof.
  unfold ParseMessage, ParseMessage_plain.
  destruct (pm && GnuPG_present); simpl; by destruct (parse_fd fd).
Qed.

Variable truth : Id -> bool.

Lemma cache_lookup_blanked (f : @entry Id Message -> @entry Id Message)
    (c : @cache Id Message) j pm :
  (forall en, f en = (None, None, None)
              \/ (en.1.1 <> Some j \/ en.1.2 <> Some pm) /\ f en = en) ->
  cache_lookup (f <$> c) j pm = None.
Proof.
  intros H. induction c as [|en c IH]; [done|].
  rewrite fmap_cons. destruct (H en) as [E|[Hn E]]; rewrite E.
  - exact IH.
  - destruct en as [[cid0 pm0] m0]. simpl in *. destruct Hn as [Hn|Hn].
    + by rewrite (bool_decide_eq_false_2 _ Hn).
    + by rewrite (bool_decide_eq_false_2 (pm0 = Some pm) Hn), andb_false_r.
Qed.

Lemma cache_lookup_spared (f : @entry Id Message -> @entry Id Message)
    (c : @cache Id Message) j pm :
  (forall en, f en = en
              \/ (en.1.1 <> Some j \/ en.1.2 <> Some pm)
                 /\ f en = (None, None, None)) ->
  cache_lookup (f <$> c) j pm = cache_lookup c j pm.
Proof.
  intros H. induction c as [|en c IH]; [done|].
  rewrite fmap_cons. destruct (H en) as [E|[Hn E]]; rewrite E.
  - destruct en as [[cid0 pm0] m0]. simpl. by rewrite IH.
  - destruct en as [[cid0 pm0] m0]. simpl in *.
    rewrite IH. destruct Hn as [Hn|Hn].
    + by rewrite (bool_decide_eq_false_2 _ Hn).
    + by rewrite (bool_decide_eq_false_2 (pm0 = Some pm) Hn), andb_false_r.
Qed.

(** [ClearParseCache] keeps the length of the cache.  With [full] no
    lookup hits any more; with [pgpmime] no lookup for the PGP/MIME mode
    hits, and the plain mode is served as before; with a cache id that
    counts as true no lookup of that id hits, in either mode, and the
    other ids are served as before. *)
Theorem ClearParseCache_effect (c : @cache Id Message) (i j : Id)
    (pm : bool) :
  (forall cid pgpmime full,
     length (ClearParseCache truth c cid pgpmime full) = length c)
  /\ (forall cid pgpmime,
        cache_lookup (ClearParseCache truth c cid pgpmime true) j pm = None)
  /\ cache_lookup (ClearParseCache truth c None true false) j true = None
  /\ cache_lookup (ClearParseCache truth c None true false) j false
     = cache_lookup c j false
  /\ (truth i = true ->
      cache_lookup (ClearParseCache truth c (Some i) false false) i pm = None
      /\ (j <> i ->
          cache_lookup (ClearParseCache truth c (Some i) false false) j pm
          = cache_lookup c j pm)).
Proof.
  split; [|split; [|split; [|split]]].
  - intros. unfold ClearParseCache. by rewrite length_fmap.
  - intros cid pgpmime. apply cache_lookup_blanked.
    intros [[cid0 pm0] m0]. by left.
  - apply cache_lookup_blanked.
    intros [[cid0 pm0] m0]. simpl.
    case_bool_decide as Hpm; simpl; [by left|right; split; [by right|done]].
  - apply cache_lookup_spared.
    intros [[cid0 pm0] m0]. simpl.
    case_bool_decide as Hpm; simpl; [right|by left].
    split; [right; congruence|done].
  - intros Ht. split.
    + apply cache_lookup_blanked.
      intros [[cid0 pm0] m0]. simpl. rewrite Ht. simpl.
      case_bool_decide as Hc; simpl; [by left|right; split; [by left|done]].
    + intros Hj. apply cache_lookup_spared.
      intros [[cid0 pm0] m0]. simpl. rewrite Ht. simpl.
      case_bool_decide as Hc; simpl; [right|by left].
      split; [left; congruence|done].
Qed.

End CacheUse.

Lemma ParseMessage_is_cached_witness :
  ParseMessage (Fd := unit) true (fun _ => Some "five") id id
    (cache_insert indexed_cache 5%Z false "five") tt (Some 5%Z) false false
  = (Some "five", cache_insert indexed_cache 5%Z false "five").
Proof.
  apply (ParseMessage_is_cached (Fd := unit) true (fun _ => Some "five") id
           id indexed_cache _ tt tt 5%Z true false "five").
  vm_compute. reflexivity.
Defined.

Lemma ParseMessage_keeps_plain_witness :
  let '(r, c') :=
    ParseMessage (Fd := unit) true (fun _ => Some "read") id
      (fun m => String.append "unwrapped " m) indexed_cache tt (Some 5%Z)
      false true in
  r = Some "unwrapped read"
  /\ cache_lookup c' 5%Z false = Some (Some "read")
  /\ cache_lookup c' 5%Z true = Some (Some "unwrapped read")
  /\ length c' <= 25.
Proof.
  apply (ParseMessage_keeps_plain (Fd := unit) true (fun _ => Some "read") id
           (fun m => String.append "unwrapped " m) indexed_cache tt 5%Z
           false "read").
  - reflexivity.
  - reflexivity.
  - vm_compute. reflexivity.
  - right. vm_compute. reflexivity.
Defined.

Lemma ClearParseCache_effect_witness :
  cache_lookup (ClearParseCache int_truth indexed_cache (Some 3%Z) false false)
               3%Z true = None
  /\ cache_lookup
       (ClearParseCache int_truth indexed_cache (Some 3%Z) false false)
       0%Z false = Some (Some "zero").
Proof.
  destruct (ClearParseCache_effect int_truth indexed_cache 3%Z 3%Z true)
    as (_ & _ & _ & _ & H).
  destruct (ClearParseCache_effect int_truth indexed_cache 3%Z 0%Z false)
    as (_ & _ & _ & _ & H0).
  split.
  - apply H. reflexivity.
  - destruct H0 as [_ H0]; [reflexivity|]. rewrite H0; [reflexivity|lia].
Defined.

(** ** The cache methods of [Email] *)

Section EmailCacheFacts.
Context {Message Fd : Type}.
Variable parse_fd : Fd -> option Message.
Variable deepcopy : Message -> Message.
Variable UnwrapMimeCrypto : Message -> Message.

(** [Email.clear_from_parse_cache] leaves the cache as it is for the
    message at index position 0: its cache id counts as false in
    [ClearParseCache], so its entries stay and are served by the next
    lookup. *)
Theorem clear_from_parse_cache_skips_first (c : @cache Z Message)
    (e : Email) :
  msg_idx_pos e = 0%Z ->
  clear_from_parse_cache c e = c.
Proof.
  intros H0. unfold clear_from_parse_cache, ClearParseCache. rewrite H0.
  destruct (cacheable e); [|done].
  rewrite <- (list_fmap_id c) at 2. apply list_fmap_ext.
  by intros k [[cid pm] m] _.
Qed.

(** For a message at a positive index position and without ephemeral id,
    [Email.clear_from_parse_cache] makes every lookup of that position
    miss, in both modes, and leaves the lookups of the other ids as they
    were. *)
Theorem clear_from_parse_cache_clears (c : @cache Z Message) (e : Email)
    (j : Z) (pm : bool) :
  (0 < msg_idx_pos e)%Z ->
  has_ephemeral_mid e = false ->
  cache_lookup (clear_from_parse_cache c e) (msg_idx_pos e) pm = None
  /\ (j <> msg_idx_pos e ->
      cache_lookup (clear_from_parse_cache c e) j pm = cache_lookup c j pm).
Proof.
  intros Hpos He. unfold clear_from_parse_cache, cacheable. rewrite He.
  replace (0 <=? msg_idx_pos e)%Z with true by (symmetry; apply Z.leb_le; lia).
  simpl.
  assert (Ht : int_truth (msg_idx_pos e) = true).
  { unfold int_truth. apply negb_true_iff, Z.eqb_neq. lia. }
  split.
  - apply cache_lookup_blanked.
    intros [[cid0 pm0] m0]. simpl. rewrite Ht. simpl.
    case_bool_decide as Hc; simpl; [by left|right; split; [by left|done]].
  - intros Hj. apply cache_lookup_spared.
    intros [[cid0 pm0] m0]. simpl. rewrite Ht. simpl.
    case_bool_decide as Hc; simpl; [right|by left].
    split; [left; congruence|done].
Qed.

Lemma update_parse_cache_hit (c : @cache Z Message) (i : Z) (m : Message) :
  (exists en, en ∈ c /\ en.1.1 = Some i) ->
  cache_lookup
    ((fun en : @entry Z Message =>
        if bool_decide (en.1.1 = Some i) then (Some i, Some false, Some m)
        else en) <$> c) i false = Some (Some m).
Proof.
  induction c as [|[[cid0 pm0] m0] c IH]; intros (en & Hin & Hen).
  - by apply elem_of_nil in Hin.
  - rewrite fmap_cons. cbn [fst snd].
    case_bool_decide as Hc.
    + simpl. by rewrite !bool_decide_eq_true_2.
    + simpl. rewrite (bool_decide_eq_false_2 _ Hc). simpl.
      apply IH. apply elem_of_cons in Hin as [->|Hin]; [done|by exists en].
Qed.

Lemma update_parse_cache_miss (c : @cache Z Message) (i : Z) (m : Message) :
  cache_lookup
    ((fun en : @entry Z Message =>
        if bool_decide (en.1.1 = Some i) then (Some i, Some false, Some m)
        else en) <$> c) i true = None.
Proof.
  induction c as [|[[cid0 pm0] m0] c IH]; [done|].
  rewrite fmap_cons. cbn [fst snd].
  case_bool_decide as Hc.
  - simpl. by rewrite andb_false_r.
  - simpl. by rewrite (bool_decide_eq_false_2 _ Hc).
Qed.

Lemma update_parse_cache_other (c : @cache Z Message) (i j : Z) pm
    (m : Message) :
  j <> i ->
  cache_lookup
    ((fun en : @entry Z Message =>
        if bool_decide (en.1.1 = Some i) then (Some i, Some false, Some m)
        else en) <$> c) j pm = cache_lookup c j pm.
Proof.
  intros Hj. induction c as [|[[cid0 pm0] m0] c IH]; [done|].
  rewrite fmap_cons. cbn [fst snd].
  case_bool_decide as Hc.
  - subst cid0. simpl.
    rewrite (bool_decide_eq_false_2 (Some i = Some j)) by congruence.
    by simpl.
  - simpl. by rewrite IH.
Qed.

(** After [Email.update_parse_cache(newmsg)] on a message that has an
    entry in the cache, the plain mode serves [newmsg] and the PGP/MIME
    mode unwraps a copy of [newmsg] again, both without reading the
    file; the other ids are served as before and the cache keeps its
    length. *)
Theorem update_parse_cache_serves_new (c : @cache Z Message) (e : Email)
    (fd : Fd) (newmsg : Message) (j : Z) (pm : bool) :
  cacheable e = true ->
  (exists en, en ∈ c /\ en.1.1 = Some (msg_idx_pos e)) ->
  (_get_parsed_msg true parse_fd deepcopy UnwrapMimeCrypto
     (update_parse_cache c e newmsg) e fd false false).1 = Some newmsg
  /\ (_get_parsed_msg true parse_fd deepcopy UnwrapMimeCrypto
        (update_parse_cache c e newmsg) e fd true false).1
     = Some (UnwrapMimeCrypto (deepcopy newmsg))
  /\ (j <> msg_idx_pos e ->
      cache_lookup (update_parse_cache c e newmsg) j pm = cache_lookup c j pm)
  /\ length (update_parse_cache c e newmsg) = length c.
Proof.
  intros Hc Hin.
  unfold _get_parsed_msg, update_parse_cache, ParseMessage,
    ParseMessage_plain.
  rewrite Hc. simpl.
  rewrite update_parse_cache_miss, (update_parse_cache_hit c _ newmsg Hin).
  split; [done|]. split; [done|]. split.
  - intros Hj. by apply update_parse_cache_other.
  - by rewrite length_fmap.
Qed.

End EmailCacheFacts.

Lemma clear_from_parse_cache_skips_first_witness :
  clear_from_parse_cache indexed_cache (MkEmail 0 None) = indexed_cache.
Proof.
  apply (clear_from_parse_cache_skips_first indexed_cache (MkEmail 0 None)).
  reflexivity.
Defined.

Lemma clear_from_parse_cache_clears_witness :
  cache_lookup (clear_from_parse_cache indexed_cache (MkEmail 3 None))
               3%Z false = None.
Proof.
  apply (clear_from_parse_cache_clears indexed_cache (MkEmail 3 None) 0%Z
           false); [simpl; lia|reflexivity].
Defined.

Lemma update_parse_cache_serves_new_witness :
  (_get_parsed_msg (Fd := unit) true (fun _ => None) id
     (fun m => String.append "unwrapped " m)
     (update_parse_cache indexed_cache (MkEmail 3 None) "edited")
     (MkEmail 3 None) tt true false).1 = Some "unwrapped edited".
Proof.
  destruct (update_parse_cache_serves_new (Fd := unit) (fun _ => None) id
              (fun m => String.append "unwrapped " m) indexed_cache
              (MkEmail 3 None) tt "edited" 0%Z false) as (_ & H & _).
  - reflexivity.
  - exists (Some 3%Z, Some true, Some "unwrapped"). split; [|reflexivity].
    by repeat constructor.
  - exact H.
Defined.

(** ** Attachments: which parts an id selects *)

Lemma find_walk_filter att_id negative count walk :
  find_walk att_id negative count walk
  = filter (fun cp => att_matches att_id cp.1 cp.2 = negb negative)
      (find_walk "*" false count walk).
Proof.
  revert count. induction walk as [|p rest IH]; intros count; [done|].
  cbn [find_walk].
  destruct (String.prefix "multipart/" (content_type p)); [apply IH|].
  cbv zeta.
  assert (Hs : att_matches "*" (count + 1) p = true) by done.
  rewrite Hs.
  destruct (att_matches att_id (count + 1) p) eqn:E, negative.
  - rewrite filter_cons_False by (cbn [fst snd negb]; rewrite E; done).
    apply IH.
  - rewrite filter_cons_True by (cbn [fst snd negb]; exact E).
    f_equal. apply IH.
  - rewrite filter_cons_True by (cbn [fst snd negb]; exact E).
    f_equal. apply IH.
  - rewrite filter_cons_False by (cbn [fst snd negb]; rewrite E; done).
    apply IH.
Qed.

Lemma find_walk_ordinals count walk :
  find_walk "*" false count walk
  = zip (seq (S count)
           (length (filter (fun p => String.prefix "multipart/"
                                       (content_type p) = false) walk)))
        (filter (fun p => String.prefix "multipart/" (content_type p) = false)
           walk).
Proof.
  revert count. induction walk as [|p rest IH]; intros count; [done|].
  simpl. destruct (String.prefix "multipart/" (content_type p)) eqn:E.
  - rewrite filter_cons_False by (rewrite E; done). apply IH.
  - rewrite filter_cons_True by done. unfold att_matches. simpl.
    rewrite Nat.add_1_r. f_equal. apply IH.
Qed.

(** [_find_attachments] numbers the parts that are not multipart
    containers 1, 2, 3, ... in the order of the walk, and yields the
    numbered parts that the id matches; with [negative] it yields
    exactly the others. *)
Theorem find_attachments_selects (walk : list mime_part) (att_id : string)
    (negative : bool) :
  let leaves :=
    filter (fun p => String.prefix "multipart/" (content_type p) = false)
      walk in
  _find_attachments walk att_id negative
  = filter (fun cp => att_matches att_id cp.1 cp.2 = negb negative)
      (zip (seq 1 (length leaves)) leaves).
Proof.
  simpl. unfold _find_attachments.
  by rewrite find_walk_filter, find_walk_ordinals.
Qed.

Lemma tree_walk_attachment count walk a :
  a ∈ (tree_walk count walk).2 ->
  (att_count a, att_part a) ∈ (tree_walk count walk).1.
Proof.
  revert count. induction walk as [|p rest IH]; intros count.
  - by intros ?%elem_of_nil.
  - simpl. destruct (tree_skips p); [apply IH|].
    specialize (IH (count + 1)).
    destruct (tree_walk (count + 1) rest) as [seen atts]. simpl in *.
    destruct (is_inline_text p).
    + intros Ha. right. by apply IH.
    + intros [->|Ha]%elem_of_cons; [by left|]. right. by apply IH.
Qed.

(** In a message without placeholder parts of an encrypted container,
    the id ['part:N'] that the tree gives an attachment selects that
    very part with that very number in [_find_attachments]. *)
Theorem tree_attachment_is_found (walk : list mime_part) (a : attachment) :
  (forall p, p ∈ walk ->
     String.eqb (content_type p) "application/pgp-encrypted" = false
     /\ is_crypted_container p = false) ->
  a ∈ tree_attachments walk ->
  (att_count a, att_part a)
    ∈ _find_attachments walk (part_aid (att_count a)) false.
Proof.
  intros Hw Ha. unfold _find_attachments.
  rewrite find_walk_filter. apply list_elem_of_filter. split.
  - cbn [fst snd negb]. unfold att_matches, part_aid.
    by rewrite (String.eqb_refl ("part:" +:+ pretty (att_count a))),
         orb_true_r.
  - rewrite (find_walk_star 0 walk Hw). by apply tree_walk_attachment.
Qed.

Lemma tree_attachment_is_found_witness :
  (3, MimePart "application/pdf" None (Some "attachment") None "report.pdf")
    ∈ _find_attachments plain_walk "part:3" false.
Proof.
  apply (tree_attachment_is_found plain_walk
           (Attachment "application/pdf" 3
              (MimePart "application/pdf" None (Some "attachment") None
                 "report.pdf") "" "report.pdf")).
  - intros p Hp. repeat (apply elem_of_cons in Hp as [->|Hp]; [done|]).
    by apply elem_of_nil in Hp.
  - vm_compute. right. left.
Defined.

(** ** [decode_text]: which charset wins *)

Section DecodeFacts.
Variable decode : string -> text -> result text.

Lemma decode_first_returns (payload : text) (charsets : list string) :
  (forall cs e, decode cs payload = Raise e ->
     e = UnicodeDecodeError \/ e = TypeError \/ e = LookupError) ->
  (exists p c, decode_first decode payload charsets = Ok (Some (p, c))
               /\ decode c payload = Ok p)
  \/ (decode_first decode payload charsets = Ok None
      /\ forall c, c ∈ charsets -> exists e, decode c payload = Raise e).
Proof.
  intros Hd. induction charsets as [|cs rest IH].
  - right. split; [done|]. by intros c ?%elem_of_nil.
  - simpl. destruct (decode cs payload) as [p|e] eqn:E.
    + left. by exists p, cs.
    + assert (He := Hd cs e E).
      assert (Hn : decode_first decode payload (cs :: rest)
                   = decode_first decode payload rest).
      { simpl. rewrite E. by destruct He as [->|[->| ->]]. }
      simpl in Hn. rewrite E in Hn. rewrite Hn.
      destruct IH as [IH|[IH Hall]]; [by left|right].
      split; [done|].
      intros c [->|Hc]%elem_of_cons; [by exists e|by apply Hall].
Qed.

(** When the codecs raise nothing but [UnicodeDecodeError], [TypeError]
    and [LookupError], [decode_text] returns: either the payload as one
    charset decodes it, with the name of that charset, or, when the
    declared charset and every charset of the priority list it tried
    have failed, the fallback (the payload itself as ['8bit'], or the
    notice that binary data is suppressed). *)
Theorem decode_text_returns (payload : text) (charset1 : option string)
    (binary : bool) :
  (forall cs e, decode cs payload = Raise e ->
     e = UnicodeDecodeError \/ e = TypeError \/ e = LookupError) ->
  exists p c,
    decode_text decode payload charset1 binary = Ok (p, c)
    /\ (decode c payload = Ok p
        \/ (forall cs, charset1 = Some cs ->
              exists e, decode cs payload = Raise e)
           /\ (forall c', c' ∈ CHARSET_PRIORITY_LIST ->
                 (forall cs, charset1 = Some cs -> lower cs <> c') ->
                 exists e, decode c' payload = Raise e)
           /\ (p, c) = (if binary then (payload, "8bit"%string)
                        else (u "[Binary data suppressed]" ++ [LF],
                              "utf-8"%string))).
Proof.
  intros Hd. unfold decode_text.
  set (charsets := match charset1 with
                   | Some cs => cs :: filter (fun c => lower cs <> c)
                                        CHARSET_PRIORITY_LIST
                   | None => CHARSET_PRIORITY_LIST
                   end).
  destruct (decode_first_returns payload charsets Hd)
    as [(p & c & -> & Hp)|[-> Hall]].
  - exists p, c. split; [done|by left].
  - simpl.
    exists (if binary then payload else u "[Binary data suppressed]" ++ [LF]),
           (if binary then "8bit"%string else "utf-8"%string).
    split; [by destruct binary|]. right. split; [|split].
    + intros cs ->. apply Hall. by left.
    + intros c' Hc' Hl. apply Hall. subst charsets.
      destruct charset1 as [cs|]; [|done].
      right. apply list_elem_of_filter. split; [|done]. by apply Hl.
    + by destruct binary.
Qed.

End DecodeFacts.

Lemma decode_text_returns_witness :
  exists p c,
    decode_text strict_codec [233%N] (Some "x-unknown") true = Ok (p, c)
    /\ (strict_codec c [233%N] = Ok p
        \/ (forall cs, Some "x-unknown"%string = Some cs ->
              exists e, strict_codec cs [233%N] = Raise e)
           /\ (forall c', c' ∈ CHARSET_PRIORITY_LIST ->
                 (forall cs, Some "x-unknown"%string = Some cs ->
                    lower cs <> c') ->
                 exists e, strict_codec c' [233%N] = Raise e)
           /\ (p, c) = ([233%N], "8bit"%string)).
Proof.
  apply (decode_text_returns strict_codec [233%N] (Some "x-unknown") true).
  intros cs e. unfold strict_codec.
  destruct (String.eqb cs "iso-8859-1"); [done|].
  destruct (String.eqb cs "utf-8"); simpl; intros [= <-]; tauto.
Defined.

(** ** The address parser: escaping and quoting *)

Lemma escape_characters (s : text) (prev : option N) :
  Re.sub_aux RE_SHOULD_ESCAPE (fun m => BACKSLASH :: m) 0 prev s
  = s ≫= escaped.
Proof.
  revert prev. induction s as [|c s IH]; intros prev; [done|].
  cbn [Re.sub_aux]. unfold Re.match_length, RE_SHOULD_ESCAPE.
  cbn [Re.rmatch].
  rewrite bind_cons. unfold escaped at 1.
  destruct (Re.oneof [BACKSLASH; DQUOTE; SQUOTE] c).
  - replace (length (c :: s) - length s) with 1 by (simpl; lia).
    cbn [take]. rewrite IH. done.
  - by rewrite IH.
Qed.

Lemma unescape_characters (s : text) (prev : option N) :
  Re.sub_aux RE_ESCAPES (drop 1) 0 prev (s ≫= escaped) = s.
Proof.
  revert prev. induction s as [|c s IH]; intros prev; [done|].
  rewrite bind_cons. unfold escaped at 1.
  destruct (Re.oneof [BACKSLASH; DQUOTE; SQUOTE] c) eqn:E.
  - rewrite <- app_comm_cons. cbn [app Re.sub_aux].
    unfold Re.match_length, RE_ESCAPES, Re.chr. cbn [Re.rmatch].
    rewrite N.eqb_refl, E.
    replace (length (BACKSLASH :: c :: s ≫= escaped)
             - length (s ≫= escaped)) with 2 by (simpl; lia).
    cbn [take drop app]. by rewrite IH.
  - cbn [app Re.sub_aux].
    unfold Re.match_length, RE_ESCAPES, Re.chr. cbn [Re.rmatch].
    assert (Hc : N.eqb BACKSLASH c = false).
    { apply N.eqb_neq. intros <-. by vm_compute in E. }
    rewrite Hc. by rewrite IH.
Qed.

(** [unescape] undoes [escape]: whatever the string, escaping it and
    unescaping the result gives the string back. *)
Theorem unescape_escape (s : text) : unescape (escape s) = s.
Proof.
  unfold unescape, escape, Re.sub.
  by rewrite escape_characters, unescape_characters.
Qed.


Lemma last_n_1_snoc {A} (l : list A) (x : A) : Py.last_n 1 (l ++ [x]) = [x].
Proof.
  unfold Py.last_n. rewrite length_app. simpl.
  replace (length l + 1 - 1) with (length l) by lia.
  by rewrite drop_app_length.
Qed.

Lemma inner_between (q1 q2 : N) (l : text) :
  inner ([q1] ++ l ++ [q2]) = l.
Proof.
  unfold inner. rewrite app_assoc, length_app. simpl length at 2.
  replace (length ([q1] ++ l) + 1 - 1) with (length ([q1] ++ l)) by lia.
  by rewrite take_app_length.
Qed.

Section QuoteFacts.
Variable encode_utf8 : text -> result text.
Variable quopri_header : text -> text.

(** A name in which [RE_SHOULD_QUOTE] finds nothing is quoted between
    double quotes, and [_clean] gives the name back from that token,
    whatever backslashes and quotes it holds. *)
Theorem clean_quote (s : text) :
  search RE_SHOULD_QUOTE s = false ->
  exists q, quote encode_utf8 quopri_header s = Ok q
            /\ q = [DQUOTE] ++ escape s ++ [DQUOTE]
            /\ _clean q = s.
Proof.
  intros Hs. unfold quote. rewrite Hs. eexists. split; [done|].
  split; [done|]. unfold _clean.
  assert (Ht : take 1 ([DQUOTE] ++ escape s ++ [DQUOTE]) = [DQUOTE]) by done.
  rewrite Ht.
  rewrite bool_decide_eq_true_2 by (by left).
  rewrite (app_assoc [DQUOTE]), last_n_1_snoc.
  assert (He : text_eqb [DQUOTE] [DQUOTE] = true) by reflexivity.
  rewrite He, <- app_assoc, inner_between.
  unfold unescape, escape, Re.sub.
  by rewrite escape_characters, unescape_characters.
Qed.

End QuoteFacts.

Lemma clean_quote_witness :
  exists q, quote Ok id (u "Shane O'Neil") = Ok q
            /\ q = [DQUOTE] ++ escape (u "Shane O'Neil") ++ [DQUOTE]
            /\ _clean q = u "Shane O'Neil".
Proof.
  apply (clean_quote Ok id (u "Shane O'Neil")). vm_compute. reflexivity.
Defined.


(** ** The tokenizer loses nothing *)

Section MatchFacts.
Context {A : Type}.

Lemma rmatch_rest (r : Re.re) :
  forall prev s (k : option N -> text -> option A) x,
    Re.rmatch r prev s k = Some x ->
    exists prev' s',
      k prev' s' = Some x
      /\ length s' <= length s
      /\ (consumes r = true -> length s' < length s).
Proof.
  induction r as [|p|r1 IH1 r2 IH2|r1 IH1 r2 IH2|r1 IH1| | |];
    intros prev s k x H.
  - exists prev, s. by repeat split.
  - destruct s as [|c s']; [done|]. simpl in H.
    destruct (p c); [|done]. exists (Some c), s'. simpl.
    repeat split; [done|lia|lia].
  - cbn [Re.rmatch] in H.
    destruct (IH1 _ _ _ _ H) as (p1 & s1 & H1 & Hl1 & Hc1).
    destruct (IH2 _ _ _ _ H1) as (p2 & s2 & H2 & Hl2 & Hc2).
    exists p2, s2. split; [done|]. split; [lia|].
    simpl. intros [Hc|Hc]%orb_true_iff.
    + specialize (Hc1 Hc). lia.
    + specialize (Hc2 Hc). lia.
  - cbn [Re.rmatch] in H.
    destruct (Re.rmatch r1 prev s k) as [y|] eqn:E.
    + injection H as ->.
      destruct (IH1 _ _ _ _ E) as (p1 & s1 & H1 & Hl1 & Hc1).
      exists p1, s1. split; [done|]. split; [done|].
      simpl. intros [Hc _]%andb_true_iff. by apply Hc1.
    + destruct (IH2 _ _ _ _ H) as (p2 & s2 & H2 & Hl2 & Hc2).
      exists p2, s2. split; [done|]. split; [done|].
      simpl. intros [_ Hc]%andb_true_iff. by apply Hc2.
  - cbn [Re.rmatch] in H. set (fuel := length s) in H. clearbody fuel.
    revert prev s H.
    induction fuel as [|fuel IHf]; intros prev s H; simpl in H.
    + exists prev, s. by repeat split.
    + match type of H with
      | match ?m with _ => _ end = _ => destruct m as [y|] eqn:E
      end.
      * injection H as ->.
        destruct (IH1 _ _ _ _ E) as (p1 & s1 & H1 & Hl1 & _).
        destruct (Nat.ltb (length s1) (length s)) eqn:El; [|done].
        apply Nat.ltb_lt in El.
        destruct (IHf _ _ H1) as (p2 & s2 & H2 & Hl2 & _).
        exists p2, s2. split; [done|]. split; [lia|done].
      * exists prev, s. by repeat split.
  - simpl in H. destruct prev; [done|]. exists None, s. by repeat split.
  - simpl in H. exists prev, s. split; [|by split].
    destruct s as [|c [|c' s']]; [done| |done].
    by destruct (N.eqb c 10).
  - simpl in H. exists prev, s. split; [|by split].
    by destruct (xorb (Re.is_word prev) (Re.is_word (head s))).
Qed.

Lemma rmatch_alt_l (r1 r2 : Re.re) prev s (k : option N -> text -> option A) :
  is_Some (Re.rmatch r1 prev s k) -> is_Some (Re.rmatch (Re.Alt r1 r2) prev s k).
Proof. intros [x E]. cbn [Re.rmatch]. by rewrite E. Qed.

Lemma rmatch_alt_r (r1 r2 : Re.re) prev s (k : option N -> text -> option A) :
  is_Some (Re.rmatch r2 prev s k) -> is_Some (Re.rmatch (Re.Alt r1 r2) prev s k).
Proof. intros H. cbn [Re.rmatch]. by destruct (Re.rmatch r1 prev s k). Qed.

Lemma rmatch_plus_class (p : N -> bool) prev c s
    (k : option N -> text -> option A) :
  (forall prev' s', is_Some (k prev' s')) ->
  p c = true ->
  is_Some (Re.rmatch (Re.Plus (Re.Cls p)) prev (c :: s) k).
Proof.
  intros Hk Hp. unfold Re.Plus. cbn [Re.rmatch]. rewrite Hp.
  destruct (length s) as [|fuel]; [apply Hk|].
  match goal with
  | |- is_Some (match ?m with _ => _ end) => destruct m
  end; [done|apply Hk].
Qed.

End MatchFacts.

Lemma match_length_positive (r : Re.re) prev s n :
  consumes r = true ->
  Re.match_length r prev s = Some n ->
  exists m, n = S m.
Proof.
  intros Hc H. unfold Re.match_length in H.
  destruct (rmatch_rest r _ _ _ _ H) as (p' & s' & [= <-] & Hl & Hlt).
  specialize (Hlt Hc). exists (length s - length s' - 1). lia.
Qed.

Lemma tokenizer_matches prev c s :
  exists n, Re.match_length RE_TOKENIZER prev (c :: s) = Some (S n).
Proof.
  assert (H : is_Some (Re.match_length RE_TOKENIZER prev (c :: s))).
  { unfold Re.match_length, RE_TOKENIZER.
    do 6 apply rmatch_alt_r.
    destruct (N.eqb (N_of_ascii ",") c) eqn:E1.
    { apply rmatch_alt_l. unfold Re.lit, Re.chr. cbn [Re.rmatch].
      by rewrite E1. }
    apply rmatch_alt_r.
    destruct (N.eqb (N_of_ascii ";") c) eqn:E2.
    { apply rmatch_alt_l. unfold Re.lit, Re.chr. cbn [Re.rmatch].
      by rewrite E2. }
    apply rmatch_alt_r.
    destruct (Re.space c) eqn:E3.
    { apply rmatch_alt_l. by apply rmatch_plus_class. }
    apply rmatch_alt_r. apply rmatch_plus_class; [done|].
    rewrite E3. simpl. apply negb_true_iff. unfold Re.oneof.
    apply bool_decide_eq_false_2.
    apply N.eqb_neq in E1, E2.
    intros [->|[->|[]%elem_of_nil]%elem_of_cons]%elem_of_cons; by vm_compute in *. }
  destruct H as [n H].
  destruct (match_length_positive RE_TOKENIZER prev (c :: s) n) as [m ->];
    [reflexivity|done|].
  by exists m.
Qed.

Lemma findall_tokenizer skip prev s :
  concat (Re.findall_aux RE_TOKENIZER skip prev s) = drop skip s
  /\ Forall (fun t => t <> []) (Re.findall_aux RE_TOKENIZER skip prev s).
Proof.
  revert skip prev. induction s as [|c s IH]; intros skip prev.
  - by destruct skip.
  - cbn [Re.findall_aux]. destruct skip as [|skip]; [|apply IH].
    destruct (tokenizer_matches prev c s) as [n ->].
    destruct (IH n (Some c)) as [IH1 IH2]. split.
    + rewrite concat_cons, IH1. simpl. f_equal. apply take_drop.
    + by constructor.
Qed.

(** Tokenizing a header value loses no character: the tokens of
    [_tokenize], one after the other, are the value again, and none of
    them is empty. *)
Theorem tokenize_is_lossless (s : text) :
  Py.join (_tokenize s PyFalse) = s
  /\ Forall (fun t => t <> []) (_tokenize s PyFalse).
Proof.
  unfold _tokenize, Py.join. simpl truthy. cbv iota.
  apply (findall_tokenizer 0 None s).
Qed.


(** ** The groups of tokens *)

Lemma foldM_invariant {A S} (P : S -> Prop) (body : S -> A -> result S)
    (l : list A) :
  (forall s a s', P s -> body s a = Ok s' -> P s') ->
  forall s s', P s -> foldM body s l = Ok s' -> P s'.
Proof.
  intros Hb. induction l as [|a l IH]; intros s s' Hs H.
  - simpl in H. by injection H as <-.
  - simpl in H. destruct (body s a) as [s1|e] eqn:E; [|done].
    simpl in H. eapply IH; [|exact H]. by eapply Hb.
Qed.

Section GroupFacts.
Variable decode : string -> text -> result text.
Variable decode_word : text -> text -> text -> result text.
Variable charset_order : list string.

Lemma group_token_closed (st : list (list text) * list text) (token : text)
    (st' : list (list text) * list text) :
  Forall (Exists (fun t => Py.contains 64 t = true)) st.1 ->
  group_token decode decode_word charset_order st token = Ok st' ->
  Forall (Exists (fun t => Py.contains 64 t = true)) st'.1.
Proof.
  destruct st as [closed cur]. intros Hc. unfold group_token.
  set (append := if bool_decide (Py.strip Str token <> []) then _ else _).
  assert (Ha : append = Ok st' ->
                Forall (Exists (fun t => Py.contains 64 t = true)) st'.1).
  { subst append. case_bool_decide.
    - destruct (unquote _ _ _ _) as [t|e]; [|done]. by intros [= <-].
    - by intros [= <-]. }
  case_bool_decide; [|done].
  case_bool_decide; [|done].
  case_bool_decide as Hat.
  - intros [= <-]. simpl. apply Forall_app. split; [done|].
    by constructor.
  - case_bool_decide; [|done]. by intros [= <-].
Qed.

(** In the result of [_group] no group is empty, and every group but
    the last holds a token with an [@]: a comma or a semicolon closes a
    group only when the group has an address. *)
Theorem group_closes_on_address (tokens : list text) (munge : pyval)
    (groups : list (list text)) :
  _group decode decode_word charset_order tokens munge = Ok groups ->
  Forall (fun g => g <> []) groups
  /\ (forall i g, groups !! i = Some g -> S i < length groups ->
        Exists (fun t => Py.contains 64 t = true) g).
Proof.
  unfold _group.
  destruct (foldM _ _ tokens) as [[closed cur]|e] eqn:E; [|done].
  simpl. intros [= <-].
  assert (Hc : Forall (Exists (fun t => Py.contains 64 t = true)) closed).
  { apply (foldM_invariant
             (fun st => Forall (Exists (fun t => Py.contains 64 t = true))
                          st.1) _ tokens group_token_closed ([], [])
             (closed, cur)); [by constructor|exact E]. }
  assert (Hn : Forall (fun g : list text => g <> []) closed).
  { eapply Forall_impl; [exact Hc|]. intros g Hg ->.
    by apply Exists_nil in Hg. }
  case_bool_decide as Hcur.
  - split; [done|]. intros i g Hi _.
    rewrite Forall_forall in Hc. apply Hc.
    by eapply list_elem_of_lookup_2.
  - split; [apply Forall_app; split; [done|by constructor]|].
    intros i g Hi Hl. rewrite length_app in Hl. simpl in Hl.
    rewrite lookup_app_l in Hi by lia.
    rewrite Forall_forall in Hc. apply Hc.
    by eapply list_elem_of_lookup_2.
Qed.

End GroupFacts.

Lemma group_closes_on_address_witness :
  Forall (fun g => g <> []) [[u "Ann"; u "<a@b.c>"]; [u "d@e.f"]]
  /\ (forall i g,
        [[u "Ann"; u "<a@b.c>"]; [u "d@e.f"]] !! i = Some g ->
        S i < length [[u "Ann"; u "<a@b.c>"]; [u "d@e.f"]] ->
        Exists (fun t => Py.contains 64 t = true) g).
Proof.
  apply (group_closes_on_address latin1 literal_word DEFAULT_CHARSET_ORDER
           (_tokenize (u "Ann <a@b.c>, d@e.f") PyFalse) PyFalse).
  vm_compute. reflexivity.
Defined.


(** ** Every address found has its [@] *)

Lemma from_index_split (c : N) (s t : text) :
  from_index c s = Ok t -> exists pre rest, s = pre ++ c :: rest /\ t = c :: rest.
Proof.
  induction s as [|c' s IH]; [done|]. simpl.
  destruct (N.eqb c c') eqn:E.
  - apply N.eqb_eq in E as <-. intros [= <-]. by exists [], s.
  - intros (pre & rest & -> & ->)%IH. by exists (c' :: pre), rest.
Qed.

Lemma before_shorter (c : N) (l1 l2 : text) :
  c ∈ l1 -> length (before c (l1 ++ l2)) < length l1.
Proof.
  induction l1 as [|x l1 IH]; [by intros ?%elem_of_nil|].
  intros Hc. simpl. destruct (N.eqb c x) eqn:E; [simpl; lia|].
  apply N.eqb_neq in E. apply elem_of_cons in Hc as [->|Hc]; [done|].
  simpl. specialize (IH Hc). lia.
Qed.

Lemma rsplit1_keeps_at (pre rest : text) :
  35%N ∈ rest ->
  64%N ∈ (rsplit1 35 (pre ++ 64%N :: rest)).1.
Proof.
  intros Hh. unfold rsplit1. cbn [fst].
  set (s := pre ++ 64%N :: rest).
  assert (Hl : length (rev (before 35 (rev s))) < length rest).
  { rewrite length_rev. subst s.
    rewrite rev_app_distr. simpl rev. rewrite <- app_assoc.
    rewrite <- (length_rev rest). apply before_shorter.
    apply list_elem_of_In, in_rev. rewrite rev_involutive.
    by apply list_elem_of_In. }
  assert (Hs : length s = length pre + S (length rest)).
  { subst s. by rewrite length_app. }
  apply (list_elem_of_lookup_2 _ (length pre)).
  rewrite lookup_take_lt by lia.
  subst s. by rewrite list_lookup_middle.
Qed.

Section AddressFacts.
Variable decode : string -> text -> result text.
Variable decode_word : text -> text -> text -> result text.
Variable charset_order : list string.

Lemma email_at_has_at (g : list text) (i : nat) (a : AddressInfo) :
  email_at g i = Ok a -> 64%N ∈ address a.
Proof.
  unfold email_at.
  destruct (index _ i) as [email|e]; [|done]. simpl.
  destruct (from_index 64 email) as [tail|e] eqn:Ef; [|done]. simpl.
  apply from_index_split in Ef as (pre & rest & -> & ->).
  destruct (Py.contains 35 (64%N :: rest)) eqn:Ec.
  - intros [= <-]. simpl. apply rsplit1_keeps_at.
    unfold Py.contains in Ec. apply bool_decide_eq_true_1 in Ec.
    by apply elem_of_cons in Ec as [?|?].
  - intros [= <-]. simpl. apply elem_of_app. right. by left.
Qed.

Lemma find_address_has_at (g : list text) (_raise : bool) (munge : pyval)
    (a : AddressInfo) :
  _find_address g _raise munge = Ok (Some a) -> 64%N ∈ address a.
Proof.
  unfold _find_address. case_bool_decide; [done|].
  repeat match goal with
  | |- context [match first_email ?m ?t ?g ?i ?n with _ => _ end] =>
      destruct (first_email m t g i n) as [[j mm]|]
  end.
  - destruct (email_at _ j) as [a'|e] eqn:E; [|done].
    intros [= <-]. by eapply email_at_has_at.
  - destruct (email_at _ j) as [a'|e] eqn:E; [|done].
    intros [= <-]. by eapply email_at_has_at.
  - by destruct _raise.
Qed.

Lemma find_addresses_have_at (groups : list (list text)) (_raise : bool)
    (munge : pyval) (l : list AddressInfo) :
  _find_addresses groups _raise munge = Ok l ->
  Forall (fun a => 64%N ∈ address a) l.
Proof.
  unfold _find_addresses. revert l.
  induction groups as [|g groups IH]; intros l.
  - simpl. intros [= <-]. constructor.
  - simpl. destruct (_find_address g _raise munge) as [o|e] eqn:E; [|done].
    simpl.
    destruct (comprehension _ groups) as [os|e]; [|done]. simpl.
    intros [= <-]. specialize (IH _ eq_refl).
    destruct o as [a|]; simpl; [|done].
    constructor; [|done]. by eapply find_address_has_at.
Qed.

Lemma parse_pass_has_at (data0 : text) (_raise : bool) (munge : pyval)
    (l : list AddressInfo) :
  parse_pass decode decode_word charset_order data0 _raise munge = Ok l ->
  Forall (fun a => 64%N ∈ address a) l.
Proof.
  unfold parse_pass. destruct (_group _ _ _ _ _) as [groups|e]; [|done].
  simpl. apply find_addresses_have_at.
Qed.

(** Every address that [_parse] returns holds an [@]: a group in which
    no token looks like an e-mail address gives no entry. *)
Theorem parsed_addresses_have_at (data0 : text) (strict _raise : bool)
    (l : list AddressInfo) :
  _parse decode decode_word charset_order data0 strict _raise = Ok l ->
  Forall (fun a => Py.contains 64 (address a) = true) l.
Proof.
  intros H.
  assert (Hl : Forall (fun a => 64%N ∈ address a) l).
  { revert H. unfold _parse.
    destruct (parse_pass _ _ _ data0 (negb strict) PyFalse) as [l1|e] eqn:E1.
    { intros [= <-]. by eapply parse_pass_has_at. }
    destruct (is_ValueError e); [|done].
    destruct (strict && _raise); [done|].
    destruct strict; [by intros [= <-]|].
    simpl.
    destruct (parse_pass _ _ _ data0 _raise (PyStr "2")) as [l2|e2] eqn:E2.
    { intros [= <-]. by eapply parse_pass_has_at. }
    destruct (is_ValueError e2); [|done].
    simpl.
    destruct (parse_pass _ _ _ data0 _raise (PyStr "3")) as [l3|e3] eqn:E3.
    { intros [= <-]. by eapply parse_pass_has_at. }
    destruct (is_ValueError e3); [|done]. by intros [= <-]. }
  eapply Forall_impl; [exact Hl|]. intros a Ha.
  unfold Py.contains. by apply bool_decide_eq_true_2.
Qed.

End AddressFacts.

Lemma parsed_addresses_have_at_witness :
  Forall (fun a => Py.contains 64 (address a) = true)
    [MkAddressInfo (u "a@b.c") (u "Ann") None;
     MkAddressInfo (u "d@e.f") [] (Some [u "1234"])].
Proof.
  apply (parsed_addresses_have_at latin1 literal_word DEFAULT_CHARSET_ORDER
           (u "Ann <a@b.c>, d@e.f#1234") false false).
  vm_compute. reflexivity.
Defined.


(** ** The header print ignores what the relays add *)

Lemma pop_first_loop_app_front (pre l : list string) :
  Forall (fun h => lower h ∉ MUA_HEADERS) pre ->
  pop_first_loop (pre ++ l) = pop_first_loop l.
Proof.
  induction 1 as [|h pre Hh _ IH]; [done|].
  simpl. by rewrite bool_decide_eq_false_2.
Qed.

Lemma pop_first_loop_none (l : list string) :
  Forall (fun h => lower h ∉ MUA_HEADERS) l -> pop_first_loop l = [].
Proof.
  intros H. rewrite <- (app_nil_r l). by rewrite pop_first_loop_app_front.
Qed.

Lemma pop_first_loop_app_back (l post : list string) :
  Forall (fun h => lower h ∉ MUA_HEADERS) post ->
  pop_first_loop (l ++ post)
  = match pop_first_loop l with
    | [] => []
    | h :: rest => (h :: rest) ++ post
    end.
Proof.
  intros Hp. induction l as [|h l IH].
  - simpl. by apply pop_first_loop_none.
  - simpl. by case_bool_decide.
Qed.

Lemma pop_last_loop_rev (fuel : nat) (l : list string) :
  length l <= fuel ->
  pop_last_loop fuel l = rev (pop_first_loop (rev l)).
Proof.
  revert l. induction fuel as [|fuel IH]; intros l Hl.
  - destruct l; [done|simpl in Hl; lia].
  - destruct l as [|x l0] using rev_ind; [done|]. clear IHl0.
    rewrite length_app in Hl. simpl in Hl.
    simpl. rewrite last_snoc, rev_app_distr. simpl.
    case_bool_decide.
    + simpl. by rewrite rev_involutive.
    + unfold Py.upto_last. rewrite length_app. simpl.
      replace (length l0 + 1 - 1) with (length l0) by lia.
      rewrite take_app_length. apply IH. lia.
Qed.

Lemma pop_last_loop_app (l post : list string) :
  Forall (fun h => lower h ∉ MUA_HEADERS) post ->
  pop_last_loop (length (l ++ post)) (l ++ post)
  = pop_last_loop (length l) l.
Proof.
  intros Hp. rewrite !pop_last_loop_rev by done.
  rewrite rev_app_distr, pop_first_loop_app_front; [done|].
  apply Forall_forall. intros h Hh%list_elem_of_In%in_rev%list_elem_of_In.
  rewrite Forall_forall in Hp. by apply Hp.
Qed.

(** Headers that are put before the first or after the last header of
    the mail program do not change the header print, as long as they
    are none of the headers that mail programs write. *)
Theorem HeaderPrintHeaders_ignores_relays {V}
    (pre message post : list (string * V)) :
  Forall (fun kv => lower kv.1 ∉ MUA_HEADERS) pre ->
  Forall (fun kv => lower kv.1 ∉ MUA_HEADERS) post ->
  HeaderPrintHeaders (pre ++ message ++ post) = HeaderPrintHeaders message.
Proof.
  intros Hpre Hpost. unfold HeaderPrintHeaders.
  rewrite !fmap_app.
  rewrite pop_first_loop_app_front
    by (apply Forall_fmap; exact Hpre).
  rewrite pop_first_loop_app_back
    by (apply Forall_fmap; exact Hpost).
  destruct (pop_first_loop (fst <$> message)) as [|h rest]; [done|].
  rewrite pop_last_loop_app; [done|].
  apply Forall_fmap. exact Hpost.
Qed.

Lemma HeaderPrintHeaders_ignores_relays_witness :
  HeaderPrintHeaders relayed_headers = HeaderPrintHeaders written_headers.
Proof.
  apply (HeaderPrintHeaders_ignores_relays
           [("Received", "by mx1"); ("Return-Path", "<a@b.c>")]
           written_headers [("X-Spam-Score", "0")]).
  - repeat (apply Forall_cons; split); try apply Forall_nil_2;
      refine (bool_decide_eq_false_1 _ _); vm_compute; reflexivity.
  - repeat (apply Forall_cons; split); try apply Forall_nil_2;
      refine (bool_decide_eq_false_1 _ _); vm_compute; reflexivity.
Defined.


(** ** [CleanMessage] exposes no internal header *)

Lemma replacements_unexposed (items : list (string * text)) key value :
  (key, value) ∈ items -> unexposed (lower key) = true ->
  (key, None) ∈ replacements items.
Proof.
  intros Hin Hu. unfold replacements. apply list_elem_of_omap.
  exists (key, value). split; [done|]. by rewrite Hu.
Qed.

Lemma replacements_added (items : list (string * text)) key val :
  (key, Some val) ∈ replacements items -> unexposed (lower key) = false.
Proof.
  unfold replacements. intros ([k v] & _ & H)%list_elem_of_omap.
  destruct (unexposed (lower k)) eqn:E; [by injection H|].
  case_bool_decide; [|done].
  destruct (Py.contains 35 v); [|done]. by injection H as <- _.
Qed.

Lemma del_headers_removes (reps : list (string * option text))
    (msg : list (string * text)) kv :
  kv ∈ foldl (fun m r => del_header m r.1) msg reps ->
  kv ∈ msg /\ forall r, r ∈ reps -> lower kv.1 <> lower r.1.
Proof.
  revert msg. induction reps as [|r reps IH]; intros msg H.
  - split; [done|]. by intros r ?%elem_of_nil.
  - simpl in H. apply IH in H as [Hin Hr].
    apply list_elem_of_filter in Hin as [Hne Hin].
    split; [done|]. intros r' [->|Hr']%elem_of_cons; [done|by apply Hr].
Qed.

Lemma added_headers (reps : list (string * option text))
    (msg : list (string * text)) kv :
  kv ∈ foldl (fun m r =>
                match r.2 with
                | Some val => if bool_decide (val <> []) then m ++ [(r.1, val)]
                              else m
                | None => m
                end) msg reps ->
  kv ∈ msg \/ (kv.1, Some kv.2) ∈ reps.
Proof.
  revert msg. induction reps as [|[k o] reps IH]; intros msg H; [by left|].
  simpl in H. apply IH in H as [H|H]; [|right; by right].
  destruct o as [val|]; [|by left]. simpl in H.
  case_bool_decide; [|by left].
  apply elem_of_app in H as [H|H]; [by left|].
  apply list_elem_of_singleton in H as ->. right. by left.
Qed.

(** No header of the message that [CleanMessage] returns is one that is
    not to be exposed: the headers named Bcc, Encryption and
    Attach-PGP-Pubkey and those that begin with X-MP-Internal- are gone,
    in whatever case they were written and however often they
    occurred. *)
Theorem CleanMessage_exposes_nothing (msg : list (string * text)) :
  Forall (fun kv => unexposed (lower kv.1) = false) (CleanMessage msg).
Proof.
  apply Forall_forall. intros [key value] H. unfold CleanMessage in H.
  apply added_headers in H as [H|H].
  - apply del_headers_removes in H as [Hin Hr]. simpl in *.
    destruct (unexposed (lower key)) eqn:E; [|done].
    by destruct (Hr _ (replacements_unexposed msg key value Hin E)).
  - by eapply replacements_added.
Qed.


(** ** Mailbox ids have four characters *)

Lemma lower_ascii_idempotent (a : ascii) :
  lower_ascii (lower_ascii a) = lower_ascii a.
Proof. by destruct a as [[] [] [] [] [] [] [] []]. Qed.

(** [FormatMbxId] returns an id of exactly four characters, which it
    returns unchanged when it is given that id again, or it raises
    [ValueError]; it raises exactly when its argument, as a string, has
    more than four characters. *)
Theorem FormatMbxId_fixed_width (b36 : Z -> string) (n : string + Z) :
  match FormatMbxId b36 n with
  | Ok r => String.length r = 4 /\ FormatMbxId b36 (inl r) = Ok r
            /\ String.length (match n with inl s => s | inr z => b36 z end)
               <= 4
  | Raise e =>
      is_ValueError e = true
      /\ 4 < String.length (match n with inl s => s | inr z => b36 z end)
  end.
Proof.
  unfold FormatMbxId.
  set (s := match n with inl s => s | inr z => b36 z end). clearbody s.
  destruct (Nat.ltb MBX_ID_LEN (String.length s)) eqn:E.
  - apply Nat.ltb_lt in E. by split.
  - apply Nat.ltb_ge in E. unfold MBX_ID_LEN in E.
    destruct s as [|a [|b [|c [|d [|e s]]]]]; simpl in E; try lia.
    all: unfold string_last_n; simpl.
    all: by rewrite ?lower_ascii_idempotent.
Qed.

(** ** Content ids do not repeat *)

Lemma hex_inj (n m : N) : hex n = hex m -> n = m.
Proof.
  unfold hex. intros H.
  assert (Hn : forall k, N.to_hex_uint k <> Hexadecimal.Nil).
  { intros k. rewrite <- (Unsigned.of_to k), Unsigned.to_of.
    apply unorm_nonnil. }
  apply Unsigned.to_uint_inj.
  assert (E : Some (N.to_hex_uint n) = Some (N.to_hex_uint m)).
  { rewrite <- (NilZero.usu _ (Hn n)), <- (NilZero.usu _ (Hn m)).
    by rewrite H. }
  by injection E.
Qed.

Lemma content_ids_closed (n : nat) (g : N) :
  content_ids n g
  = (fun i => hex ((g + N.of_nat i) mod 0xfffffff)%N) <$> seq 1 n.
Proof.
  revert g. induction n as [|n IH]; intros g; [done|].
  cbn [content_ids]. rewrite IH. cbn [seq fmap list_fmap].
  unfold MakeContentID. cbn [fst snd]. f_equal.
  rewrite <- !fmap_S_seq, <- !list_fmap_compose.
  apply list_fmap_ext. intros _ i _. simpl. f_equal.
  rewrite N.Div0.add_mod_idemp_l. f_equal. lia.
Qed.

(** Fewer than 0xfffffff calls of [MakeContentID] after one another, or
    just as many, never return the same id twice, from whatever value
    the counter starts. *)
Theorem MakeContentID_ids_differ (n : nat) (g : N) :
  (N.of_nat n <= 0xfffffff)%N ->
  NoDup (content_ids n g).
Proof.
  intros Hn. rewrite content_ids_closed.
  apply NoDup_fmap_2_strong; [|apply NoDup_seq].
  intros i j Hi%elem_of_seq Hj%elem_of_seq H%hex_inj.
  assert (Ei := N.Div0.div_mod (g + N.of_nat i) 0xfffffff).
  assert (Ej := N.Div0.div_mod (g + N.of_nat j) 0xfffffff).
  assert (Hi' := N.mod_lt (g + N.of_nat i) 0xfffffff).
  assert (Hj' := N.mod_lt (g + N.of_nat j) 0xfffffff).
  lia.
Qed.

Lemma MakeContentID_ids_differ_witness :
  NoDup (content_ids 3 0xffffffd).
Proof. apply MakeContentID_ids_differ. vm_compute. discriminate. Defined.
